(** * Alchemist-Repos: name normalisation and path inference

    A shallow embedding of the pure core of the four [*_aio.py] processors
    (KeatonTheBot, StevensND, theboy181, Fl4sh9174): the sanitizer, the
    title caser and the per-repository path interpreters, together with
    the Title-ID scan.

    Python [str] values are sequences of Unicode code points; they are
    modelled as lists of code points ([N]).  Case mapping is the ASCII one:
    statements that depend on [str.lower]/[str.upper], on [\d] or on
    [re.IGNORECASE] are made for ASCII labels, which is what
    [sanitize_name] hands to the title caser. *)

From Stdlib Require Import Ascii String.
From Stdlib Require Import Arith NArith List Bool Lia.
Import ListNotations.


(** ** Python strings *)

Module Py.

Definition char := N.
Definition str := list char.
Bind Scope N_scope with char.

(** A character literal. *)
Definition chr (a : ascii) : char := N_of_ascii a.
Arguments chr a%_char.

(** Literals: the code points of an ASCII Rocq string. *)
Definition lit (s : string) : str := map N_of_ascii (list_ascii_of_string s).
Arguments lit s%_string.

Definition is_ascii (c : char) : bool := (c <? 128)%N.
Definition ascii_str (s : str) : Prop := Forall (fun c => is_ascii c = true) s.

Definition is_upper (c : char) : bool := ((65 <=? c) && (c <=? 90))%N.
Definition is_lower (c : char) : bool := ((97 <=? c) && (c <=? 122))%N.
Definition is_digit (c : char) : bool := ((48 <=? c) && (c <=? 57))%N.

(** [\w] of the [re] module on ASCII text: letters, digits, underscore. *)
Definition is_word (c : char) : bool :=
  is_upper c || is_lower c || is_digit c || (c =? 95)%N.

Definition lower_c (c : char) : char := if is_upper c then (c + 32)%N else c.
Definition upper_c (c : char) : char := if is_lower c then (c - 32)%N else c.

(** [str.lower()] and [str.upper()]. *)
Definition lower (s : str) : str := map lower_c s.
Definition upper (s : str) : str := map upper_c s.

(** [str.isspace()] for one character: tab, LF, VT, FF, CR, the four
    information separators, space, and the Unicode spaces beyond ASCII. *)
Definition is_space (c : char) : bool :=
  ((9 <=? c) && (c <=? 13) || (28 <=? c) && (c <=? 32)
   || (c =? 133) || (c =? 160) || (c =? 5760)
   || (8192 <=? c) && (c <=? 8202)
   || (c =? 8232) || (c =? 8233) || (c =? 8239) || (c =? 8287)
   || (c =? 12288))%N.

Definition eqb (a b : str) : bool :=
  if list_eq_dec N.eq_dec a b then true else false.

(** [x in xs] for a set or tuple of strings. *)
Definition mem (x : str) (xs : list str) : bool := existsb (eqb x) xs.

(** [s.startswith(p)]. *)
Fixpoint startswith (p s : str) : bool :=
  match p, s with
  | [], _ => true
  | _ :: _, [] => false
  | a :: p', b :: s' => (a =? b)%N && startswith p' s'
  end.

(** [p in s] for strings: substring test. *)
Fixpoint contains (p s : str) : bool :=
  startswith p s ||
  match s with
  | [] => false
  | _ :: s' => contains p s'
  end.

(** [sep.join(xs)]. *)
Fixpoint join (sep : str) (xs : list str) : str :=
  match xs with
  | [] => []
  | [x] => x
  | x :: rest => x ++ sep ++ join sep rest
  end.

(** [s.split()] without argument: maximal runs of non-space characters. *)
Fixpoint split_ws (s : str) : list str :=
  match s with
  | [] => []
  | c :: s' =>
      if is_space c then split_ws s'
      else match s' with
           | [] => [[c]]
           | d :: _ =>
               if is_space d then [c] :: split_ws s'
               else match split_ws s' with
                    | w :: ws => (c :: w) :: ws
                    | [] => [[c]]
                    end
           end
  end.

(** [s.split(c)] for a one-character separator: every occurrence cuts,
    empty fields are kept. *)
Fixpoint split_char (c : char) (s : str) : list str :=
  match s with
  | [] => [[]]
  | x :: s' =>
      if (x =? c)%N then [] :: split_char c s'
      else match split_char c s' with
           | w :: ws => (x :: w) :: ws
           | [] => [[x]]
           end
  end.

(** [s.replace(old, new)] for a non-empty [old]: leftmost occurrences,
    not overlapping.  [skip] counts the characters of an occurrence that
    are still to be passed over. *)
Fixpoint replace_from (old new : str) (skip : nat) (s : str) : str :=
  match s with
  | [] => []
  | c :: s' =>
      match skip with
      | S k => replace_from old new k s'
      | O =>
          if startswith old s
          then new ++ replace_from old new (length old - 1) s'
          else c :: replace_from old new 0 s'
      end
  end.

Definition replace (old new s : str) : str := replace_from old new 0 s.

(** [s.split(sep)] for a non-empty separator string. *)
Fixpoint split_str_from (sep : str) (skip : nat) (cur : str) (s : str)
  : list str :=
  match s with
  | [] => [rev cur]
  | c :: s' =>
      match skip with
      | S k => split_str_from sep k cur s'
      | O =>
          if startswith sep s
          then rev cur :: split_str_from sep (length sep - 1) [] s'
          else split_str_from sep 0 (c :: cur) s'
      end
  end.

Definition split_str (sep s : str) : list str := split_str_from sep 0 [] s.

(** [s.lstrip()], [s.rstrip()], [s.strip()]. *)
Fixpoint lstrip (s : str) : str :=
  match s with
  | [] => []
  | c :: s' => if is_space c then lstrip s' else s
  end.

Definition rstrip (s : str) : str := rev (lstrip (rev s)).
Definition strip (s : str) : str := rstrip (lstrip s).

End Py.

Import Py.


(** ** Regular expressions

    The anchored patterns of the source whose only result is "matches or
    not" are kept as data and run by derivatives; for such a match the
    backtracking order of [re] does not matter. *)

Module Regex.

Inductive re : Type :=
| Empty : re
| Eps : re
| Chr : char -> re
| Cat : re -> re -> re
| Alt : re -> re -> re.

(** [r?], a literal word, and [r{0,n}]. *)
Definition Opt (r : re) : re := Alt Eps r.

Fixpoint Word (s : str) : re :=
  match s with
  | [] => Eps
  | c :: s' => Cat (Chr c) (Word s')
  end.

Fixpoint Upto (n : nat) (r : re) : re :=
  match n with
  | O => Eps
  | S k => Opt (Cat r (Upto k r))
  end.

(** One character against a literal of the pattern; [ic] is
    [re.IGNORECASE]. *)
Definition chr_match (ic : bool) (c x : char) : bool :=
  if ic then (lower_c c =? lower_c x)%N else (c =? x)%N.

(** The language of a pattern. *)
Inductive matches (ic : bool) : re -> str -> Prop :=
| m_eps : matches ic Eps []
| m_chr c x : chr_match ic c x = true -> matches ic (Chr c) [x]
| m_cat a b s t : matches ic a s -> matches ic b t -> matches ic (Cat a b) (s ++ t)
| m_alt_l a b s : matches ic a s -> matches ic (Alt a b) s
| m_alt_r a b s : matches ic b s -> matches ic (Alt a b) s.

Fixpoint nullable (r : re) : bool :=
  match r with
  | Empty => false
  | Eps => true
  | Chr _ => false
  | Cat a b => nullable a && nullable b
  | Alt a b => nullable a || nullable b
  end.

Fixpoint deriv (ic : bool) (x : char) (r : re) : re :=
  match r with
  | Empty => Empty
  | Eps => Empty
  | Chr c => if chr_match ic c x then Eps else Empty
  | Cat a b =>
      if nullable a
      then Alt (Cat (deriv ic x a) b) (deriv ic x b)
      else Cat (deriv ic x a) b
  | Alt a b => Alt (deriv ic x a) (deriv ic x b)
  end.

(** The whole of [s] is in the language of [r]. *)
Fixpoint accepts (ic : bool) (r : re) (s : str) : bool :=
  match s with
  | [] => nullable r
  | x :: s' => accepts ic (deriv ic x r) s'
  end.

(** [re.match] of a pattern ["^r$"]: without [re.MULTILINE], [$] holds at
    the end of the string and also just before a final line feed. *)
Definition match_anchored (ic : bool) (r : re) (s : str) : bool :=
  accepts ic r s ||
  match rev s with
  | nl :: t => (nl =? 10)%N && accepts ic r (rev t)
  | [] => false
  end.

End Regex.

Import Regex.

(** ** The title caser (identical in the four processors) *)

Module Title.

(** [capitalize_hyphenated]. *)
Definition capitalize_piece (p : str) : str :=
  match p with
  | [] => []
  | [_] => upper p
  | c :: rest => upper [c] ++ lower rest
  end.

Definition capitalize_hyphenated (word : str) : str :=
  join (lit "-") (map capitalize_piece (split_char (chr "-") word)).

(** [ROMAN_NUMERAL_PATTERN], compiled with [re.IGNORECASE]:
    [^M{0,4}(CM|CD|D?C{0,3})(XC|XL|L?X{0,3})(IX|IV|V?I{0,3})$]. *)
Definition roman_group (nine four : string) (five one : ascii) : re :=
  Alt (Word (lit nine))
      (Alt (Word (lit four))
           (Cat (Opt (Chr (chr five))) (Upto 3 (Chr (chr one))))).

Definition ROMAN_NUMERAL_PATTERN : re :=
  Cat (Upto 4 (Chr (chr "M")))
      (Cat (roman_group "CM" "CD" "D" "C")
           (Cat (roman_group "XC" "XL" "L" "X")
                (roman_group "IX" "IV" "V" "I"))).

Definition ACRONYMS : list str :=
  map lit ["HD"; "2D"; "3D"; "4K"; "VR"; "AI"; "API"; "USB"; "CPU"; "GPU";
           "DVD"; "CD"; "RPG"; "FPS"; "MMO"; "MMORPG"; "LAN"; "GUI"; "NPC";
           "FFVII"; "FFVIII"; "FFIX"; "FFX"; "FFXII"; "FX"; "2K"; "5K"; "8K";
           "V1"; "V2"; "V3"; "V4"; "DOF"]%string.

Definition is_roman_numeral (w : str) : bool :=
  match_anchored true ROMAN_NUMERAL_PATTERN w.

Definition lowercase_exceptions : list str :=
  map lit ["a"; "an"; "and"; "as"; "at"; "but"; "by"; "for"; "from"; "in";
           "nor"; "of"; "on"; "or"; "so"; "the"; "to"; "with"; "yet"]%string.

(** The en dash U+2013 and the em dash U+2014. *)
Definition en_dash : char := 8211.
Definition em_dash : char := 8212.

Definition subtitle_markers : list str :=
  [lit ":"; lit "~"; lit "-"; [en_dash]; [em_dash]].

(** The character class of [re.split(r'([:~\-–—])', word)]. *)
Definition is_marker_char (c : char) : bool :=
  ((c =? chr ":") || (c =? chr "~") || (c =? chr "-")
   || (c =? en_dash) || (c =? em_dash))%N.

(** [re.split] with a capturing group: the separators stay in the list,
    each as an item of its own. *)
Fixpoint split_markers (s : str) : list str :=
  match s with
  | [] => [[]]
  | x :: s' =>
      if is_marker_char x then [] :: [x] :: split_markers s'
      else match split_markers s' with
           | w :: ws => (x :: w) :: ws
           | [] => [[x]]
           end
  end.

(** The loop [for sep in ('&','+','|')] of [cap_special], falling through
    to [capitalize_hyphenated]. *)
Fixpoint cap_compound (seps : list char) (w : str) : str :=
  match seps with
  | [] => capitalize_hyphenated w
  | sep :: rest =>
      if contains [sep] w && forallb is_roman_numeral (split_char sep w)
      then join [sep] (map upper (split_char sep w))
      else cap_compound rest w
  end.

Definition cap_special (w : str) : str :=
  if mem (upper w) ACRONYMS then upper w
  else if is_roman_numeral w then upper w
  else cap_compound [chr "&"; chr "+"; chr "|"] w.

(** The inner loop over the parts of one word.  It returns the flag
    [force_cap] as the loop leaves it and [out_parts]. *)
Fixpoint loop_parts (is_first is_last force_cap : bool) (parts : list str)
  : bool * list str :=
  match parts with
  | [] => (force_cap, [])
  | part :: rest =>
      if mem part subtitle_markers then
        let (f, out) := loop_parts is_first is_last true rest in
        (f, part :: out)
      else
        let lp := lower part in
        let o :=
          if force_cap || is_first || is_last
             || negb (mem lp lowercase_exceptions)
          then join (lit "-") (map cap_special (split_char (chr "-") part))
          else lp in
        let (f, out) := loop_parts is_first is_last force_cap rest in
        (f, o :: out)
  end.

(** [contains_marker = any(m in word for m in subtitle_markers)]. *)
Definition contains_marker (word : str) : bool :=
  existsb (fun m => contains m word) subtitle_markers.

(** The outer loop [for idx, word in enumerate(words)]; [n] is
    [len(words)].  It returns [result]. *)
Fixpoint loop_words (n idx : nat) (force_cap : bool) (words : list str)
  : list str :=
  match words with
  | [] => []
  | word :: rest =>
      let (f, out_parts) :=
        loop_parts (idx =? 0)%nat (idx =? n - 1)%nat force_cap
                   (split_markers word) in
      concat out_parts
        :: loop_words n (S idx) (if contains_marker word then f else false)
                      rest
  end.

(** The expression assigned to [result[0]] and to [result[-1]]. *)
Definition fix_piece (sp : str) : str :=
  if mem (upper sp) ACRONYMS || is_roman_numeral sp then upper sp
  else capitalize_hyphenated sp.

Definition fix_word (w : str) : str :=
  join (lit "-") (map fix_piece (split_char (chr "-") w)).

Definition set_first (f : str -> str) (l : list str) : list str :=
  match l with
  | [] => []
  | x :: t => f x :: t
  end.

Definition set_last (f : str -> str) (l : list str) : list str :=
  rev (set_first f (rev l)).

(** The list [result] after the fix-up of its first and last entries. *)
Definition title_words (words : list str) : list str :=
  let result := loop_words (length words) 0 false words in
  set_last fix_word (set_first fix_word result).

Definition title_case_preserve_numbers (name : str) : str :=
  join (lit " ") (title_words (split_ws name)).

End Title.

Import Title.

(** ** The sanitizer *)

(** What [unicodedata.normalize("NFKD", _)] takes from the Unicode
    character database: the full compatibility decomposition of a code
    point.  ASCII characters have none.  The database is not part of the
    repository, so it is an interface here. *)
Class UnicodeData : Type := {
  decompose : char -> str;
  decompose_ascii : forall c, is_ascii c = true -> decompose c = [c]
}.

Module Sanitize.

(** [unicodedata.normalize("NFKD", name).encode("ascii", "ignore")
    .decode("ascii")].  Normalisation decomposes every code point and then
    reorders combining marks only; the marks are dropped by the encoding,
    so the ASCII characters come out in the order of their sources. *)
Definition ascii_fold `{UnicodeData} (name : str) : str :=
  filter is_ascii (flat_map decompose name).

(** The tuple of the deletion loop: apostrophe (twice), backtick, double
    quote. *)
Definition quote_chars : list str := [lit "'"; lit "'"; lit "`"; [34%N]].

(** A match of [\bBros\.\s] (with [re.IGNORECASE]) at the head of [s],
    the character before it being [prev]. *)
Definition bros_at (prev : option char) (s : str) : bool :=
  match prev with
  | Some q => negb (is_word q)
  | None => true
  end &&
  match s with
  | b :: r :: o :: s4 :: dot :: w :: _ =>
      Regex.chr_match true (chr "B") b && Regex.chr_match true (chr "r") r
      && Regex.chr_match true (chr "o") o && Regex.chr_match true (chr "s") s4
      && (dot =? chr ".")%N && is_space w
  | _ => false
  end.

(** [re.sub(r'\bBros\.\s', 'Bros ', n, flags=re.IGNORECASE)]. *)
Fixpoint sub_bros_from (skip : nat) (prev : option char) (s : str) : str :=
  match s with
  | [] => []
  | c :: s' =>
      match skip with
      | S k => sub_bros_from k (Some c) s'
      | O =>
          if bros_at prev s
          then lit "Bros " ++ sub_bros_from 5 (Some c) s'
          else c :: sub_bros_from 0 (Some c) s'
      end
  end.

Definition sub_bros (s : str) : str := sub_bros_from 0 None s.

(** The part of [sanitize_name] after the ASCII folding. *)
Definition sanitize_ascii (n : str) : str :=
  let n := fold_left (fun n ch => replace ch [] n) quote_chars n in
  let n := replace (lit " - ") (lit " ") n in
  let n := sub_bros n in
  strip (join (lit " ") (split_ws n)).

Definition sanitize_name `{UnicodeData} (name : str) : str :=
  sanitize_ascii (ascii_fold name).

Definition clean_title `{UnicodeData} (name : str) : str :=
  title_case_preserve_numbers (sanitize_name name).

End Sanitize.

Import Sanitize.

(** An excerpt of the database, enough to run examples: the accented
    Latin-1 letters decompose into their base letter and a combining
    mark. *)
Definition latin1_base (c : char) : option char :=
  if ((192 <=? c) && (c <=? 197))%N then Some (chr "A")
  else if (c =? 199)%N then Some (chr "C")
  else if ((200 <=? c) && (c <=? 203))%N then Some (chr "E")
  else if ((204 <=? c) && (c <=? 207))%N then Some (chr "I")
  else if (c =? 209)%N then Some (chr "N")
  else if ((210 <=? c) && (c <=? 214))%N then Some (chr "O")
  else if ((217 <=? c) && (c <=? 220))%N then Some (chr "U")
  else if (c =? 221)%N then Some (chr "Y")
  else if ((224 <=? c) && (c <=? 229))%N then Some (chr "a")
  else if (c =? 231)%N then Some (chr "c")
  else if ((232 <=? c) && (c <=? 235))%N then Some (chr "e")
  else if ((236 <=? c) && (c <=? 239))%N then Some (chr "i")
  else if (c =? 241)%N then Some (chr "n")
  else if ((242 <=? c) && (c <=? 246))%N then Some (chr "o")
  else if ((249 <=? c) && (c <=? 252))%N then Some (chr "u")
  else if ((c =? 253) || (c =? 255))%N then Some (chr "y")
  else None.

(** The combining marks of the Latin-1 letters, by position in their
    block: grave, acute, circumflex, tilde, diaeresis, ring, cedilla. *)
Definition latin1_mark (c : char) : char :=
  if ((c =? 192) || (c =? 200) || (c =? 204) || (c =? 210) || (c =? 217)
      || (c =? 224) || (c =? 232) || (c =? 236) || (c =? 242) || (c =? 249))%N
  then 768
  else if ((c =? 193) || (c =? 201) || (c =? 205) || (c =? 211) || (c =? 218)
      || (c =? 221) || (c =? 225) || (c =? 233) || (c =? 237) || (c =? 243)
      || (c =? 250) || (c =? 253))%N
  then 769
  else if ((c =? 194) || (c =? 202) || (c =? 206) || (c =? 212) || (c =? 219)
      || (c =? 226) || (c =? 234) || (c =? 238) || (c =? 244) || (c =? 251))%N
  then 770
  else if ((c =? 195) || (c =? 209) || (c =? 213) || (c =? 227) || (c =? 241)
      || (c =? 245))%N
  then 771
  else if ((c =? 197) || (c =? 229))%N then 778
  else if ((c =? 199) || (c =? 231))%N then 807
  else 776.

Definition latin1_decompose (c : char) : str :=
  match latin1_base c with
  | Some b => [b; latin1_mark c]
  | None => [c]
  end.

(** The excerpt as an instance of the interface. *)
Definition latin1 : UnicodeData.
Proof.
  refine {| decompose := latin1_decompose |}.
  unfold is_ascii, latin1_decompose, latin1_base. intros c Hc.
  apply N.ltb_lt in Hc.
  repeat match goal with
  | |- context [if ?b then _ else _] =>
      let E := fresh in
      destruct b eqn:E;
      [exfalso;
       rewrite ?andb_true_iff, ?orb_true_iff, ?N.leb_le, ?N.eqb_eq in E;
       unfold chr in *; simpl in *; lia|]
  end.
  reflexivity.
Defined.

(** ** Exceptions and indexing *)

Inductive exn : Type := IndexError.

Inductive result (A : Type) : Type :=
| Ok : A -> result A
| Raise : exn -> result A.

Arguments Ok {A} _.
Arguments Raise {A} _.

Definition bind {A B : Type} (c : result A) (k : A -> result B) : result B :=
  match c with
  | Ok a => k a
  | Raise e => Raise e
  end.

Notation "x <- c ;; k" := (bind c (fun x => k))
  (at level 61, c at next level, right associativity).

(** [l[i]] for [i >= 0] and [l[-k]] for [k >= 1]. *)
Definition item {A : Type} (l : list A) (i : nat) : result A :=
  match nth_error l i with
  | Some a => Ok a
  | None => Raise IndexError
  end.

Definition item_back {A : Type} (l : list A) (k : nat) : result A :=
  if (k <=? length l)%nat then item l (length l - k) else Raise IndexError.

(** ** Paths and the patterns shared by the interpreters *)

Module Path.

(** [os.path.relpath(path, root_dir).split(os.sep)] for a directory that
    [os.walk] reached [below] the root: the segments walked, or ["."] for
    the root itself. *)
Definition relpath_parts (below : list str) : list str :=
  match below with
  | [] => [lit "."]
  | _ => below
  end.

Definition sep : str := lit "/".

(** [os.path.basename] and [os.path.dirname] on the segments of a path. *)
Definition basename (segs : list str) : str := last segs [].
Definition dirname (segs : list str) : list str := removelast segs.

(** For the pattern [\[.*?\]] tried just after an opening bracket: how
    many characters come before the nearest closing bracket; the dot does
    not pass a line feed. *)
Fixpoint close_offset (s : str) : option nat :=
  match s with
  | [] => None
  | c :: s' =>
      if (c =? chr "]")%N then Some O
      else if (c =? 10)%N then None
      else option_map S (close_offset s')
  end.

(** [re.sub(r'\[.*?\]', '', s)]. *)
Fixpoint remove_brackets_from (skip : nat) (s : str) : str :=
  match s with
  | [] => []
  | c :: s' =>
      match skip with
      | S k => remove_brackets_from k s'
      | O =>
          if (c =? chr "[")%N then
            match close_offset s' with
            | Some k => remove_brackets_from (S k) s'
            | None => c :: remove_brackets_from 0 s'
            end
          else c :: remove_brackets_from 0 s'
      end
  end.

Definition remove_brackets (s : str) : str := remove_brackets_from 0 s.

(** [re.search(r'\[(.*?)\]', s)]: group 1 of the first match. *)
Fixpoint first_bracket (s : str) : option str :=
  match s with
  | [] => None
  | c :: s' =>
      if (c =? chr "[")%N then
        match close_offset s' with
        | Some k => Some (firstn k s')
        | None => first_bracket s'
        end
      else first_bracket s'
  end.

(** [re.search(r'\[.*?\]', s)] as a truth value. *)
Definition has_bracket (s : str) : bool :=
  match first_bracket s with
  | Some _ => true
  | None => false
  end.

(** [re.search(r' v\d+', s)] as a truth value. *)
Fixpoint has_version_marker (s : str) : bool :=
  match s with
  | a :: ((b :: d :: _) as s') =>
      (a =? chr " ")%N && (b =? chr "v")%N && is_digit d
      || has_version_marker s'
  | _ => false
  end.

(** The loop that looks for a country folder in [parts[1:]]. *)
Fixpoint find_country (ps : list str) : option str :=
  match ps with
  | [] => None
  | p :: rest =>
      if has_bracket p then Some (strip (remove_brackets p))
      else find_country rest
  end.

(** [if country: raw_game = f"{raw_game} ({country})"]. *)
Definition with_country (raw_game : str) (country : option str) : str :=
  match country with
  | Some ((_ :: _) as c) => raw_game ++ lit " (" ++ c ++ lit ")"
  | _ => raw_game
  end.

(** The [", The"] rule: [p = s.split(", The")], then
    [f"The {p[0]}{p[1]}"]. *)
Definition move_the (s : str) : result str :=
  if contains (lit ", The") s then
    let parts := split_str (lit ", The") s in
    p0 <- item parts 0 ;;
    p1 <- item parts 1 ;;
    Ok (lit "The " ++ p0 ++ p1)
  else Ok s.

End Path.

Import Path.

(** ** KeatonTheBot *)

Module Keaton.

Definition transform_game_name (game_name : str) : result str :=
  g <- move_the game_name ;;
  Ok (replace (lit " - ") (lit " ") g).

(** [root] holds the segments of [root_dir], [below] those of [path]
    under it. *)
Definition get_game_name_and_mod_name `{UnicodeData}
    (root below : list str) : result (str * str) :=
  let parts := relpath_parts below in
  let relative_path := join sep parts in
  raw_game <- item parts 0 ;;
  raw_game <- transform_game_name (strip (remove_brackets raw_game)) ;;
  let raw_game := with_country raw_game (find_country (tl parts)) in
  let game_name := clean_title raw_game in
  raw_mod <-
    (if contains (lit "Aspect Ratio") relative_path then
       let aspect_ratio :=
         replace (lit "'") (lit ".") (basename (dirname (root ++ below))) in
       Ok (lit "Aspect Ratio " ++ aspect_ratio)
     else
       last_part <- item_back parts 1 ;;
       if has_version_marker last_part then
         parent <- item_back parts 2 ;;
         Ok (parent ++ lit " " ++ last_part)
       else if (2 <=? length parts)%nat then item_back parts 2
       else Ok (lit "Mods")) ;;
  Ok (game_name, clean_title raw_mod).

End Keaton.

(** ** theboy181 *)

Module Theboy181.

Definition transform_game_name_raw (raw_game : str) : result str :=
  g <- move_the raw_game ;;
  let g := replace (lit ":") [] g in
  Ok (replace (lit " - ") (lit " ") g).

Definition get_game_name_and_mod_name `{UnicodeData}
    (root below : list str) : result (str * str) :=
  let parts := relpath_parts below in
  let relative := join sep parts in
  raw_game <- item parts 0 ;;
  raw_game <- transform_game_name_raw (strip (remove_brackets raw_game)) ;;
  let raw_game := with_country raw_game (find_country (tl parts)) in
  let game_name := clean_title raw_game in
  raw_mod <-
    (if contains (lit "Aspect Ratio") relative then
       let aspect_folder := basename (root ++ below) in
       Ok (lit "Aspect Ratio " ++ aspect_folder)
     else
       last_folder <- item_back parts 1 ;;
       if has_version_marker last_folder then
         parent_folder <-
           (if (2 <? length parts)%nat then item_back parts 2 else Ok []) ;;
         Ok (strip (parent_folder ++ lit " " ++ last_folder))
       else if (1 <? length parts)%nat then item_back parts 2
       else Ok []) ;;
  let raw_mod := strip raw_mod in
  let raw_mod := replace (lit "`") (lit ".")
                   (replace (lit "'") (lit ".") raw_mod) in
  let raw_mod := replace (lit "21-9") (lit "21.9") raw_mod in
  let raw_mod := replace (lit ":") [] raw_mod in
  let raw_mod :=
    if eqb raw_mod (lit "Trailblazers") then lit "4K" else raw_mod in
  let mod_name :=
    match raw_mod with
    | [] => lit "Mods"
    | _ => clean_title raw_mod
    end in
  Ok (game_name, mod_name).

End Theboy181.

(** ** StevensND *)

Module StevensND.

(** The longest run of characters satisfying [f] at the head of [s], and
    what follows it. *)
Fixpoint span (f : char -> bool) (s : str) : str * str :=
  match s with
  | [] => ([], [])
  | c :: s' =>
      if f c then let (a, b) := span f s' in (c :: a, b) else ([], s)
  end.

(** One [\.\d+] at the head of [s]: what follows it. *)
Definition dot_digits (s : str) : option str :=
  match s with
  | c :: s' =>
      if (c =? chr ".")%N then
        match span is_digit s' with
        | (_ :: _, rest) => Some rest
        | _ => None
        end
      else None
  | [] => None
  end.

Definition word_at_head (s : str) : bool :=
  match s with
  | c :: _ => is_word c
  | [] => false
  end.

(** A match of [\b(v?\d+(?:\.\d+){1,2})\b] (with [re.IGNORECASE]) at
    the head of [s], the character before it being [prev]: what follows
    the match.  Two dotted groups are tried before one. *)
Definition version_at (prev : option char) (s : str) : option str :=
  let before := match prev with Some q => is_word q | None => false end in
  if negb (xorb before (word_at_head s)) then None
  else
    let s1 := match s with
              | c :: s' =>
                  if Regex.chr_match true (chr "v") c then s' else s
              | [] => s
              end in
    match span is_digit s1 with
    | (_ :: _, s2) =>
        match dot_digits s2 with
        | Some s3 =>
            match dot_digits s3 with
            | Some s4 =>
                if negb (word_at_head s4) then Some s4 else Some s3
            | None => if negb (word_at_head s3) then Some s3 else None
            end
        | None => None
        end
    | _ => None
    end.

(** [re.sub] of that pattern by the empty string. *)
Fixpoint sub_versions_from (skip : nat) (prev : option char) (s : str)
  : str :=
  match s with
  | [] => []
  | c :: s' =>
      match skip with
      | S k => sub_versions_from k (Some c) s'
      | O =>
          match version_at prev s with
          | Some rest =>
              sub_versions_from (length s - length rest - 1) (Some c) s'
          | None => c :: sub_versions_from 0 (Some c) s'
          end
      end
  end.

Definition strip_versions (text : str) : str :=
  strip (sub_versions_from 0 None text).

(** The end of the pattern below, a group of any characters up to [$], at
    the head of [s]: the group, when the rest of the string is one line
    (a final line feed is left out by [$]). *)
Definition rest_of_line (s : str) : option str :=
  match span (fun c => negb (c =? 10)%N) s with
  | (g, []) => Some g
  | (g, [_]) => Some g
  | _ => None
  end.

(** [re.match] of the pattern for a leading version number: [^], group 1
    of digits with any number of dotted digit groups, any white space,
    group 2 of any characters, [$].  The result is group 2. *)
Fixpoint skip_dot_digits (fuel : nat) (s : str) : str :=
  match fuel with
  | O => s
  | S k =>
      match dot_digits s with
      | Some rest => skip_dot_digits k rest
      | None => s
      end
  end.

Definition leading_version (s : str) : option str :=
  match span is_digit s with
  | (_ :: _, s1) =>
      let s2 := skip_dot_digits (length s1) s1 in
      rest_of_line (snd (span is_space s2))
  | _ => None
  end.

(** [\s+v[0-9.]+$] (with [re.IGNORECASE]) on the whole of [s]. *)
Definition version_tail (s : str) : bool :=
  match span is_space s with
  | (_ :: _, v :: s1) =>
      Regex.chr_match true (chr "v") v &&
      match span (fun c => is_digit c || (c =? chr ".")%N) s1 with
      | (_ :: _, []) => true
      | (_ :: _, [nl]) => (nl =? 10)%N
      | _ => false
      end
  | _ => false
  end.

(** [re.match] (with [re.IGNORECASE]) of the pattern made of [^], a greedy
    group 1 of any characters, and [\s+v[0-9.]+$]: group 1, the longest
    prefix on one line that leaves a version tail. *)
Fixpoint version_suffix (s : str) : option str :=
  match s with
  | [] => None
  | c :: s' =>
      match (if (c =? 10)%N then None else version_suffix s') with
      | Some g => Some (c :: g)
      | None => if version_tail s then Some [] else None
      end
  end.

(** The three rewrites of [sub_folders] and the choice of [raw_mod] in the
    branch without an aspect ratio. *)
Definition drop_leading_version (sub_folders : list str) : list str :=
  match sub_folders with
  | sf :: rest =>
      match leading_version sf with
      | Some g =>
          match strip g with
          | [] => rest
          | trailing => trailing :: rest
          end
      | None => sub_folders
      end
  | [] => []
  end.

Definition drop_country_prefix (country : option str)
    (sub_folders : list str) : list str :=
  match country, sub_folders with
  | Some ((_ :: _) as c), sf :: rest =>
      if startswith (lower c) (lower sf)
      then lstrip (skipn (length c) sf) :: rest
      else sub_folders
  | _, _ => sub_folders
  end.

Definition get_game_name_and_mod_name `{UnicodeData}
    (root below : list str) : result (str * str) :=
  let parts := relpath_parts below in
  let relative_path := join sep parts in
  raw_game <- item parts 0 ;;
  raw_game <- move_the (strip (remove_brackets raw_game)) ;;
  let raw_game := replace (lit " - ") (lit " ") raw_game in
  let country := find_country (tl parts) in
  let raw_game := with_country raw_game country in
  let game_name := clean_title raw_game in
  let sub_folders := map (fun p => strip (remove_brackets p)) (tl parts) in
  let sub_folders :=
    filter (fun sf => negb (eqb (lower sf) (lit "pchtxt"))) sub_folders in
  let raw_mod :=
    if contains (lit "Aspect Ratio") relative_path then
      let aspect_folder := basename (root ++ below) in
      lit "Aspect Ratio " ++ aspect_folder
    else
      let sub_folders := drop_leading_version sub_folders in
      let sub_folders := drop_country_prefix country sub_folders in
      let raw_mod :=
        match sub_folders with
        | [] => lit "Port Mods"
        | _ => strip (join (lit " ") sub_folders)
        end in
      let raw_mod := strip_versions raw_mod in
      match version_suffix raw_mod with
      | Some g => strip g
      | None => raw_mod
      end in
  let mod_name :=
    match raw_mod with
    | [] => lit "Port Mods"
    | _ => clean_title raw_mod
    end in
  Ok (game_name, mod_name).

End StevensND.

(** ** Fl4sh9174 *)

Module Fl4sh9174.

(** [ v[0-9.]+$] on the whole of [s]. *)
Definition version_end (s : str) : option str :=
  match s with
  | a :: b :: s1 =>
      if ((a =? chr " ") && (b =? chr "v"))%N then
        match StevensND.span (fun c => is_digit c || (c =? chr ".")%N) s1 with
        | (_ :: _, []) => Some []
        | (_ :: _, [nl]) => if (nl =? 10)%N then Some [nl] else None
        | _ => None
        end
      else None
  | _ => None
  end.

(** [re.sub(r' v[0-9.]+$', '', s)]. *)
Fixpoint drop_version_end (s : str) : str :=
  match version_end s with
  | Some rest => rest
  | None =>
      match s with
      | [] => []
      | c :: s' => c :: drop_version_end s'
      end
  end.

(** The naming done in [create_formatted_structure] for a content file
    found in the directory [game_dir/below...]. *)
Definition derive_names `{UnicodeData} (game_dir : str) (below : list str)
  : str * str :=
  let cleaned_game_name := clean_title game_dir in
  let relative_path := join sep (game_dir :: below) in
  let mod_name_clean :=
    match first_bracket relative_path with
    | None => lit "Ultrawide Mods"
    | Some raw_mod_name =>
        clean_title (strip (drop_version_end raw_mod_name))
    end in
  (cleaned_game_name, mod_name_clean).

End Fl4sh9174.

(** ** The Title-ID scan *)

Module TitleId.

(** The class [[0-9A-Fa-f]]. *)
Definition is_hex (c : char) : bool :=
  (is_digit c || (65 <=? c) && (c <=? 70) || (97 <=? c) && (c <=? 102))%N.

(** A match of [\[([0-9A-Fa-f]{16})\]] at the head of [s]: group 1. *)
Definition title_id_at (s : str) : option str :=
  match s with
  | c :: s' =>
      let id := firstn 16 s' in
      if (c =? chr "[")%N && (length id =? 16)%nat && forallb is_hex id
         && match skipn 16 s' with
            | d :: _ => (d =? chr "]")%N
            | [] => false
            end
      then Some id else None
  | [] => None
  end.

(** [re.search] of that pattern in [content], then [group(1)]. *)
Fixpoint search_title_id (content : str) : option str :=
  match title_id_at content with
  | Some id => Some id
  | None =>
      match content with
      | [] => None
      | _ :: rest => search_title_id rest
      end
  end.

End TitleId.

(** ** File names in the walk of [create_formatted_structure] *)

Module Driver.

(** [s.endswith(suffix)]. *)
Definition endswith (suffix s : str) : bool :=
  startswith (rev suffix) (rev s).

Definition extension : str := lit ".pchtxt".

(** The filter [file.lower().endswith('.pchtxt')]. *)
Definition is_content_file (file : str) : bool :=
  endswith extension (lower file).

(** [version = file[:-len('.pchtxt')].strip()]; the slice is empty for a
    name shorter than the extension. *)
Definition version_of (file : str) : str :=
  strip (firstn (length file - length extension) file).

(** The name of the copy, [f"{version}.pchtxt"]. *)
Definition copy_name (file : str) : str := version_of file ++ extension.

End Driver.

(** ** Notions used in the statements and proofs *)

(** A character that no case mapping produces or changes. *)
Definition caseless (c : char) : Prop :=
  is_upper c = false /\ is_lower c = false.

(** What the inner loop appends for a part that is not a marker; [cap]
    is [force_cap or is_first or is_last]. *)
Definition part_output (cap : bool) (part : str) : str :=
  if cap || negb (mem (lower part) lowercase_exceptions)
  then join (lit "-") (map cap_special (split_char (chr "-") part))
  else lower part.

(** What the outer loop appends for a word, and the flag it leaves. *)
Definition word_output (n idx : nat) (force_cap : bool) (word : str) : str :=
  concat (snd (loop_parts (idx =? 0)%nat (idx =? n - 1)%nat force_cap
                          (split_markers word))).

Definition flag_after (force_cap : bool) (word : str) : bool :=
  if contains_marker word
  then force_cap || existsb (fun p => mem p subtitle_markers)
                            (split_markers word)
  else false.

(** A word as [str.split()] yields them: not empty, no white space. *)
Definition good_word (w : str) : Prop :=
  w <> [] /\ forallb (fun c => negb (is_space c)) w = true.

(** A bracketed run of exactly sixteen hexadecimal digits begins at
    offset [k] of [content]. *)
Definition occurs_at (content : str) (k : nat) (id : str) : Prop :=
  exists pre post,
    content = pre ++ chr "[" :: id ++ chr "]" :: post
    /\ length pre = k /\ length id = 16%nat
    /\ forallb TitleId.is_hex id = true.

(** The rewrites theboy181 applies to a raw mod label before the
    ["Trailblazers"] test. *)
Definition theboy181_rewrites (raw_mod : str) : str :=
  replace (lit ":") []
    (replace (lit "21-9") (lit "21.9")
       (replace (lit "`") (lit ".")
          (replace (lit "'") (lit ".") (strip raw_mod)))).

(** The white-space normal form of a label, as the specification words
    it: every run of white space becomes one space, and white space at
    the two ends is removed. *)
Fixpoint collapse_runs (s : str) : str :=
  match s with
  | [] => []
  | c :: s' =>
      if is_space c then
        match s' with
        | d :: _ =>
            if is_space d then collapse_runs s'
            else chr " " :: collapse_runs s'
        | [] => [chr " "]
        end
      else c :: collapse_runs s'
  end.

Definition collapse_whitespace (s : str) : str := strip (collapse_runs s).

(** The literal characters of a pattern and the length of its longest
    word. *)
Fixpoint re_chars (r : re) : list char :=
  match r with
  | Empty | Eps => []
  | Chr c => [c]
  | Cat a b | Alt a b => re_chars a ++ re_chars b
  end.

Fixpoint re_max_len (r : re) : nat :=
  match r with
  | Empty | Eps => 0
  | Chr _ => 1
  | Cat a b => re_max_len a + re_max_len b
  | Alt a b => Nat.max (re_max_len a) (re_max_len b)
  end.

(** The characters the sanitizer deletes. *)
Definition is_quote (c : char) : bool :=
  ((c =? chr "'") || (c =? chr "`") || (c =? 34))%N.

(** The class [[0-9.]] of the version patterns. *)
Definition is_version_char (c : char) : bool :=
  is_digit c || (c =? chr ".")%N.

(** A non-empty run of digits, and a version number made of such runs
    joined by dots. *)
Definition digit_group (g : str) : Prop :=
  g <> [] /\ forallb is_digit g = true.

Definition dotted (g0 : str) (gs : list str) : str :=
  g0 ++ concat (map (cons (chr ".")) gs).

(** * Properties *)

(** ** Characters *)

Ltac bool_to_prop :=
  repeat progress rewrite ?andb_true_iff, ?orb_true_iff, ?negb_true_iff,
          ?andb_false_iff, ?orb_false_iff, ?negb_false_iff,
          ?N.leb_le, ?N.leb_gt, ?N.eqb_eq, ?N.eqb_neq,
          ?N.ltb_lt, ?N.ltb_ge in *.

Ltac char_cases :=
  unfold lower_c, upper_c, is_upper, is_lower, is_digit, is_space, is_word,
         is_ascii, is_marker_char, en_dash, em_dash, chr in *;
  simpl N_of_ascii in *;
  repeat match goal with
  | |- context [if ?b then _ else _] => destruct b eqn:?
  end;
  try (apply eq_iff_eq_true);
  bool_to_prop; try lia; try tauto.

Lemma lower_lower_c c : lower_c (lower_c c) = lower_c c.
Proof. char_cases. Qed.

Lemma lower_upper_c c : lower_c (upper_c c) = lower_c c.
Proof. char_cases. Qed.

Lemma upper_lower_c c : upper_c (lower_c c) = upper_c c.
Proof. char_cases. Qed.

Lemma is_space_lower_c c : is_space (lower_c c) = is_space c.
Proof. char_cases. Qed.

Lemma is_marker_lower_c c : is_marker_char (lower_c c) = is_marker_char c.
Proof. char_cases. Qed.


Lemma eqb_lower_caseless c x :
  caseless c -> (lower_c x =? c)%N = (x =? c)%N.
Proof. intros [H1 H2]. char_cases. Qed.

Lemma eqb_upper_caseless c x :
  caseless c -> (upper_c x =? c)%N = (x =? c)%N.
Proof. intros [H1 H2]. char_cases. Qed.

(** ** Strings *)

Lemma lower_app a b : lower (a ++ b) = lower a ++ lower b.
Proof. apply map_app. Qed.

Lemma lower_lower s : lower (lower s) = lower s.
Proof.
  unfold lower. rewrite map_map. apply map_ext. apply lower_lower_c.
Qed.

Lemma lower_upper s : lower (upper s) = lower s.
Proof.
  unfold lower, upper. rewrite map_map. apply map_ext. apply lower_upper_c.
Qed.

Lemma upper_lower s : upper (lower s) = upper s.
Proof.
  unfold lower, upper. rewrite map_map. apply map_ext. apply upper_lower_c.
Qed.

Lemma join_cons sep x y l :
  join sep (x :: y :: l) = x ++ sep ++ join sep (y :: l).
Proof. reflexivity. Qed.

Lemma map_join (f : char -> char) sep l :
  map f (join sep l) = join (map f sep) (map (map f) l).
Proof.
  induction l as [|x [|y l] IH]; try reflexivity.
  rewrite join_cons. simpl map at 3. rewrite join_cons.
  rewrite !map_app. f_equal. f_equal. exact IH.
Qed.

Lemma lower_join sep l : lower (join sep l) = join (lower sep) (map lower l).
Proof. apply map_join. Qed.

Lemma lower_concat l : lower (concat l) = concat (map lower l).
Proof. unfold lower. apply concat_map. Qed.

Lemma split_char_not_nil c s : split_char c s <> [].
Proof.
  destruct s as [|x s]; simpl; [discriminate|].
  destruct (x =? c)%N; [discriminate|].
  destruct (split_char c s); discriminate.
Qed.

Lemma join_split_char c s : join [c] (split_char c s) = s.
Proof.
  induction s as [|x s IH]; [reflexivity|]. simpl.
  destruct (x =? c)%N eqn:E.
  - apply N.eqb_eq in E. subst x.
    destruct (split_char c s) as [|w ws] eqn:Es.
    + exfalso. exact (split_char_not_nil _ _ Es).
    + rewrite join_cons. simpl. f_equal. exact IH.
  - destruct (split_char c s) as [|w ws] eqn:Es.
    + exfalso. exact (split_char_not_nil _ _ Es).
    + destruct ws as [|w' ws]; simpl in *; f_equal; exact IH.
Qed.

Lemma split_char_map (f : char -> char) c s :
  (forall x, (f x =? c)%N = (x =? c)%N) ->
  split_char c (map f s) = map (map f) (split_char c s).
Proof.
  intros Hf. induction s as [|x s IH]; [reflexivity|]. simpl.
  rewrite Hf, IH. destruct (x =? c)%N; [reflexivity|].
  destruct (split_char c s); reflexivity.
Qed.

Lemma split_char_no_sep c s :
  existsb (fun x => (x =? c)%N) s = false -> split_char c s = [s].
Proof.
  induction s as [|x s IH]; [reflexivity|]. simpl.
  intros H. apply orb_false_iff in H. destruct H as [H1 H2].
  rewrite H1, (IH H2). reflexivity.
Qed.

Lemma split_markers_not_nil s : split_markers s <> [].
Proof.
  destruct s as [|x s]; simpl; [discriminate|].
  destruct (is_marker_char x); [discriminate|].
  destruct (split_markers s); discriminate.
Qed.

Lemma concat_split_markers s : concat (split_markers s) = s.
Proof.
  induction s as [|x s IH]; [reflexivity|]. simpl.
  destruct (is_marker_char x).
  - simpl. f_equal. exact IH.
  - destruct (split_markers s) as [|w ws] eqn:Es.
    + exfalso. exact (split_markers_not_nil _ Es).
    + simpl in *. f_equal. exact IH.
Qed.

Lemma split_markers_map (f : char -> char) s :
  (forall x, is_marker_char (f x) = is_marker_char x) ->
  split_markers (map f s) = map (map f) (split_markers s).
Proof.
  intros Hf. induction s as [|x s IH]; [reflexivity|]. simpl.
  rewrite Hf, IH. destruct (is_marker_char x); [reflexivity|].
  destruct (split_markers s); reflexivity.
Qed.

Lemma split_markers_plain s :
  existsb is_marker_char s = false -> split_markers s = [s].
Proof.
  induction s as [|x s IH]; [reflexivity|]. simpl.
  intros H. apply orb_false_iff in H. destruct H as [H1 H2].
  rewrite H1, (IH H2). reflexivity.
Qed.

(** ** The derivative matcher decides the language of a pattern *)

Section RegexCorrect.

Variable ic : bool.

Lemma matches_eps_inv s : matches ic Eps s -> s = [].
Proof. intros H. inversion H. reflexivity. Qed.

Lemma matches_empty_inv s : ~ matches ic Empty s.
Proof. intros H. inversion H. Qed.

Lemma matches_chr_inv c s :
  matches ic (Chr c) s -> exists x, s = [x] /\ chr_match ic c x = true.
Proof. intros H. inversion H; subst. eauto. Qed.

Lemma matches_cat_inv a b s :
  matches ic (Cat a b) s ->
  exists s1 s2, s = s1 ++ s2 /\ matches ic a s1 /\ matches ic b s2.
Proof. intros H. inversion H; subst. eauto. Qed.

Lemma matches_alt_inv a b s :
  matches ic (Alt a b) s -> matches ic a s \/ matches ic b s.
Proof. intros H. inversion H; subst; auto. Qed.

Lemma nullable_correct r : nullable r = true <-> matches ic r [].
Proof.
  induction r as [| |c|a IHa b IHb|a IHa b IHb]; simpl.
  - split; [discriminate|]. intros H. destruct (matches_empty_inv _ H).
  - split; [constructor|reflexivity].
  - split; [discriminate|]. intros H.
    apply matches_chr_inv in H. destruct H as (x & E & _). discriminate.
  - rewrite andb_true_iff, IHa, IHb. split.
    + intros [Ha Hb]. exact (m_cat _ _ _ _ _ Ha Hb).
    + intros H. apply matches_cat_inv in H.
      destruct H as (s1 & s2 & E & Ha & Hb).
      symmetry in E. apply app_eq_nil in E. destruct E; subst. auto.
  - rewrite orb_true_iff, IHa, IHb. split.
    + intros [H|H]; [apply m_alt_l|apply m_alt_r]; exact H.
    + apply matches_alt_inv.
Qed.

Lemma deriv_correct x r :
  forall s, matches ic (deriv ic x r) s <-> matches ic r (x :: s).
Proof.
  induction r as [| |c|a IHa b IHb|a IHa b IHb]; simpl; intros s.
  - split; intros H; destruct (matches_empty_inv _ H).
  - split; intros H; [destruct (matches_empty_inv _ H)|].
    apply matches_eps_inv in H. discriminate.
  - destruct (chr_match ic c x) eqn:E; split; intros H.
    + apply matches_eps_inv in H. subst. constructor. exact E.
    + apply matches_chr_inv in H. destruct H as (y & Ey & _).
      injection Ey as _ ->. constructor.
    + destruct (matches_empty_inv _ H).
    + apply matches_chr_inv in H. destruct H as (y & Ey & Hy).
      injection Ey as -> _. congruence.
  - assert (Hcat : matches ic (Cat (deriv ic x a) b) s ->
                   matches ic (Cat a b) (x :: s)).
    { intros H. apply matches_cat_inv in H.
      destruct H as (s1 & s2 & -> & Ha & Hb).
      apply IHa in Ha. exact (m_cat _ _ _ _ _ Ha Hb). }
    assert (Hinv : matches ic (Cat a b) (x :: s) ->
                   matches ic (Cat (deriv ic x a) b) s \/
                   (matches ic a [] /\ matches ic b (x :: s))).
    { intros H. apply matches_cat_inv in H.
      destruct H as (s1 & s2 & E & Ha & Hb).
      destruct s1 as [|y s1]; simpl in E.
      - subst s2. right. auto.
      - injection E as <- ->. left. apply IHa in Ha. exact (m_cat _ _ _ _ _ Ha Hb). }
    destruct (nullable a) eqn:Na; split; intros H.
    + apply matches_alt_inv in H. destruct H as [H|H]; [auto|].
      apply IHb in H. apply nullable_correct in Na.
      exact (m_cat _ _ _ _ _ Na H).
    + apply Hinv in H. destruct H as [H|[_ H]].
      * apply m_alt_l. exact H.
      * apply m_alt_r. apply IHb. exact H.
    + auto.
    + apply Hinv in H. destruct H as [H|[H _]]; [exact H|].
      apply nullable_correct in H. congruence.
  - split; intros H.
    + apply matches_alt_inv in H.
      destruct H as [H|H]; [apply m_alt_l, IHa|apply m_alt_r, IHb]; exact H.
    + apply matches_alt_inv in H.
      destruct H as [H|H]; [apply m_alt_l, IHa|apply m_alt_r, IHb]; exact H.
Qed.

Lemma accepts_correct s : forall r, accepts ic r s = true <-> matches ic r s.
Proof.
  induction s as [|x s IH]; intros r; simpl.
  - apply nullable_correct.
  - rewrite IH. apply deriv_correct.
Qed.

End RegexCorrect.

Lemma chr_match_lower c x : chr_match true c (lower_c x) = chr_match true c x.
Proof. unfold chr_match. rewrite lower_lower_c. reflexivity. Qed.

Lemma deriv_lower x r : deriv true (lower_c x) r = deriv true x r.
Proof.
  induction r as [| |c|a IHa b IHb|a IHa b IHb]; cbn [deriv];
    rewrite ?chr_match_lower, ?IHa, ?IHb; reflexivity.
Qed.

Lemma accepts_lower s : forall r, accepts true r (lower s) = accepts true r s.
Proof.
  induction s as [|x s IH]; intros r; simpl; [reflexivity|].
  rewrite deriv_lower. apply IH.
Qed.

Lemma match_anchored_lower r s :
  match_anchored true r (lower s) = match_anchored true r s.
Proof.
  unfold match_anchored. rewrite accepts_lower. f_equal.
  unfold lower at 1. rewrite <- map_rev.
  destruct (rev s) as [|h t]; [reflexivity|]. simpl.
  rewrite <- map_rev. fold (lower (rev t)). rewrite accepts_lower.
  f_equal. apply eqb_lower_caseless. split; reflexivity.
Qed.

Lemma is_roman_numeral_lower w :
  is_roman_numeral (lower w) = is_roman_numeral w.
Proof. apply match_anchored_lower. Qed.

(** ** The capitalisation helpers see a token only up to case *)

Lemma caseless_hyphen : caseless (chr "-").
Proof. split; reflexivity. Qed.

Lemma capitalize_piece_lower p :
  capitalize_piece (lower p) = capitalize_piece p.
Proof.
  destruct p as [|c [|d rest]]; try reflexivity.
  - simpl. rewrite upper_lower_c. reflexivity.
  - change (upper [lower_c c] ++ lower (lower (d :: rest))
            = upper [c] ++ lower (d :: rest)).
    rewrite lower_lower. simpl. rewrite upper_lower_c. reflexivity.
Qed.

Lemma lower_capitalize_piece p : lower (capitalize_piece p) = lower p.
Proof.
  destruct p as [|c [|d rest]]; try reflexivity.
  - simpl. rewrite lower_upper_c. reflexivity.
  - change (lower (upper [c] ++ lower (d :: rest)) = lower (c :: d :: rest)).
    rewrite lower_app, lower_lower. simpl. rewrite lower_upper_c.
    reflexivity.
Qed.

Lemma split_char_lower c s :
  caseless c -> split_char c (lower s) = map lower (split_char c s).
Proof.
  intros Hc. apply split_char_map. intros x. apply eqb_lower_caseless, Hc.
Qed.

Lemma lower_sep c : caseless c -> lower [c] = [c].
Proof.
  intros [H1 H2]. unfold lower, lower_c. simpl. rewrite H1. reflexivity.
Qed.

Lemma capitalize_hyphenated_lower w :
  capitalize_hyphenated (lower w) = capitalize_hyphenated w.
Proof.
  unfold capitalize_hyphenated.
  rewrite (split_char_lower _ _ caseless_hyphen), map_map.
  f_equal. apply map_ext. apply capitalize_piece_lower.
Qed.

Lemma join_map_lower c l :
  caseless c -> join [c] (map lower l) = lower (join [c] l).
Proof. intros Hc. rewrite lower_join, (lower_sep _ Hc). reflexivity. Qed.

Lemma lower_capitalize_hyphenated w :
  lower (capitalize_hyphenated w) = lower w.
Proof.
  unfold capitalize_hyphenated.
  rewrite lower_join, map_map.
  rewrite (map_ext _ lower lower_capitalize_piece).
  change (lower (lit "-")) with [chr "-"].
  rewrite (join_map_lower _ _ caseless_hyphen), join_split_char. reflexivity.
Qed.

Lemma startswith_sep_lower c s :
  caseless c -> startswith [c] (lower s) = startswith [c] s.
Proof.
  intros Hc. destruct s as [|x s]; [reflexivity|]. simpl.
  rewrite !andb_true_r, !(N.eqb_sym c). apply eqb_lower_caseless, Hc.
Qed.

Lemma contains_sep_lower c s :
  caseless c -> contains [c] (lower s) = contains [c] s.
Proof.
  intros Hc. induction s as [|x s IH]; [reflexivity|].
  change (startswith [c] (lower (x :: s)) || contains [c] (lower s)
          = startswith [c] (x :: s) || contains [c] s).
  rewrite IH, (startswith_sep_lower _ _ Hc). reflexivity.
Qed.

Lemma forallb_roman_lower l :
  forallb is_roman_numeral (map lower l) = forallb is_roman_numeral l.
Proof.
  induction l as [|x l IH]; [reflexivity|]. simpl.
  rewrite is_roman_numeral_lower, IH. reflexivity.
Qed.

Lemma map_upper_lower l : map upper (map lower l) = map upper l.
Proof. rewrite map_map. apply map_ext, upper_lower. Qed.

Lemma map_lower_upper l : map lower (map upper l) = map lower l.
Proof. rewrite map_map. apply map_ext, lower_upper. Qed.

Lemma cap_compound_lower seps w :
  Forall caseless seps -> cap_compound seps (lower w) = cap_compound seps w.
Proof.
  induction 1 as [|c seps Hc _ IH]; simpl.
  - apply capitalize_hyphenated_lower.
  - rewrite (contains_sep_lower _ _ Hc), (split_char_lower _ _ Hc).
    rewrite forallb_roman_lower, map_upper_lower, IH. reflexivity.
Qed.

Lemma lower_cap_compound seps w :
  Forall caseless seps -> lower (cap_compound seps w) = lower w.
Proof.
  induction 1 as [|c seps Hc _ IH]; simpl.
  - apply lower_capitalize_hyphenated.
  - destruct (contains [c] w && _); [|exact IH].
    rewrite lower_join, map_lower_upper, (lower_sep _ Hc).
    rewrite (join_map_lower _ _ Hc), join_split_char. reflexivity.
Qed.

Lemma caseless_compound_seps : Forall caseless [chr "&"; chr "+"; chr "|"].
Proof. repeat constructor. Qed.

Lemma cap_special_lower w : cap_special (lower w) = cap_special w.
Proof.
  unfold cap_special.
  rewrite upper_lower, is_roman_numeral_lower.
  rewrite (cap_compound_lower _ _ caseless_compound_seps). reflexivity.
Qed.

Lemma lower_cap_special w : lower (cap_special w) = lower w.
Proof.
  unfold cap_special.
  destruct (mem (upper w) ACRONYMS); [apply lower_upper|].
  destruct (is_roman_numeral w); [apply lower_upper|].
  apply (lower_cap_compound _ _ caseless_compound_seps).
Qed.


Lemma lower_fix_piece sp : lower (fix_piece sp) = lower sp.
Proof.
  unfold fix_piece.
  destruct (mem (upper sp) ACRONYMS || is_roman_numeral sp).
  - apply lower_upper.
  - apply lower_capitalize_hyphenated.
Qed.

(** Mapping a case-blind, case-only function over the hyphen-separated
    pieces of a word. *)
Lemma hyphen_pieces_lower (f : str -> str) w :
  (forall p, f (lower p) = f p) ->
  join (lit "-") (map f (split_char (chr "-") (lower w)))
  = join (lit "-") (map f (split_char (chr "-") w)).
Proof.
  intros Hf. rewrite (split_char_lower _ _ caseless_hyphen), map_map.
  f_equal. apply map_ext, Hf.
Qed.

Lemma lower_hyphen_pieces (f : str -> str) w :
  (forall p, lower (f p) = lower p) ->
  lower (join (lit "-") (map f (split_char (chr "-") w))) = lower w.
Proof.
  intros Hf. rewrite lower_join, map_map, (map_ext _ lower Hf).
  change (lower (lit "-")) with [chr "-"].
  rewrite (join_map_lower _ _ caseless_hyphen), join_split_char. reflexivity.
Qed.


Lemma lower_fix_word w : lower (fix_word w) = lower w.
Proof. apply lower_hyphen_pieces, lower_fix_piece. Qed.

(** ** The two loops of the title caser *)

Lemma eqb_eq a b : eqb a b = true <-> a = b.
Proof.
  unfold eqb. destruct (list_eq_dec N.eq_dec a b); split;
    congruence || auto.
Qed.

Lemma eqb_refl a : eqb a a = true.
Proof. apply eqb_eq. reflexivity. Qed.

Lemma lower_eq_caseless m p : Forall caseless m -> lower p = m <-> p = m.
Proof.
  intros Hm. revert p. induction Hm as [|c m Hc _ IH]; intros p.
  - destruct p; simpl; split; congruence.
  - destruct p as [|x p]; simpl; [split; congruence|].
    split; intros E; injection E as E1 E2.
    + apply (proj1 (IH p)) in E2. subst p. f_equal.
      apply N.eqb_eq. rewrite <- (eqb_lower_caseless _ x Hc).
      apply N.eqb_eq. exact E1.
    + subst. f_equal; [|apply (proj2 (IH m)); reflexivity].
      destruct Hc as [H1 _]. unfold lower_c. rewrite H1. reflexivity.
Qed.

Lemma eqb_lower_l m p : Forall caseless m -> eqb (lower p) m = eqb p m.
Proof.
  intros Hm. apply eq_iff_eq_true. rewrite !eqb_eq.
  apply lower_eq_caseless, Hm.
Qed.

Lemma mem_lower_caseless ms p :
  Forall (Forall caseless) ms -> mem (lower p) ms = mem p ms.
Proof.
  induction 1 as [|m ms Hm _ IH]; [reflexivity|].
  unfold mem in *. simpl. rewrite IH, (eqb_lower_l _ _ Hm). reflexivity.
Qed.

Lemma mem_caseless_fixed ms p :
  Forall (Forall caseless) ms -> mem p ms = true -> lower p = p.
Proof.
  induction 1 as [|m ms Hm _ IH]; [discriminate|].
  unfold mem in *. simpl. intros H. apply orb_true_iff in H.
  destruct H as [H|H]; [|auto].
  apply eqb_eq in H. subst p. apply (proj2 (lower_eq_caseless m m Hm)).
  reflexivity.
Qed.

Lemma markers_caseless : Forall (Forall caseless) subtitle_markers.
Proof. repeat constructor. Qed.

Lemma contains_marker_lower w :
  contains_marker (lower w) = contains_marker w.
Proof.
  unfold contains_marker, subtitle_markers. cbn [existsb].
  change (lit ":") with [chr ":"]. change (lit "~") with [chr "~"].
  change (lit "-") with [chr "-"].
  repeat (rewrite contains_sep_lower by (split; reflexivity)).
  reflexivity.
Qed.


Lemma part_output_lower cap part :
  part_output cap (lower part) = part_output cap part.
Proof.
  unfold part_output. rewrite lower_lower.
  rewrite (hyphen_pieces_lower _ _ cap_special_lower). reflexivity.
Qed.

Lemma lower_part_output cap part :
  lower (part_output cap part) = lower part.
Proof.
  unfold part_output. destruct (cap || _).
  - apply lower_hyphen_pieces, lower_cap_special.
  - apply lower_lower.
Qed.

Lemma loop_parts_cons is_first is_last force_cap part rest :
  loop_parts is_first is_last force_cap (part :: rest) =
  if mem part subtitle_markers then
    (fst (loop_parts is_first is_last true rest),
     part :: snd (loop_parts is_first is_last true rest))
  else
    (fst (loop_parts is_first is_last force_cap rest),
     part_output (force_cap || is_first || is_last) part
       :: snd (loop_parts is_first is_last force_cap rest)).
Proof.
  cbn [loop_parts]. destruct (mem part subtitle_markers).
  - destruct (loop_parts is_first is_last true rest). reflexivity.
  - destruct (loop_parts is_first is_last force_cap rest). reflexivity.
Qed.

Lemma loop_parts_lower is_first is_last parts : forall force_cap,
  loop_parts is_first is_last force_cap (map lower parts)
  = loop_parts is_first is_last force_cap parts.
Proof.
  induction parts as [|part rest IH]; intros force_cap; [reflexivity|].
  cbn [map]. rewrite !loop_parts_cons.
  rewrite (mem_lower_caseless _ _ markers_caseless), !IH, part_output_lower.
  destruct (mem part subtitle_markers) eqn:E; [|reflexivity].
  rewrite (mem_caseless_fixed _ _ markers_caseless E). reflexivity.
Qed.

Lemma lower_loop_parts is_first is_last parts : forall force_cap,
  map lower (snd (loop_parts is_first is_last force_cap parts))
  = map lower parts.
Proof.
  induction parts as [|part rest IH]; intros force_cap; [reflexivity|].
  rewrite loop_parts_cons.
  destruct (mem part subtitle_markers); cbn [snd map]; rewrite IH;
    rewrite ?lower_part_output; reflexivity.
Qed.

Lemma flag_loop_parts is_first is_last parts : forall force_cap,
  fst (loop_parts is_first is_last force_cap parts)
  = force_cap || existsb (fun p => mem p subtitle_markers) parts.
Proof.
  induction parts as [|part rest IH]; intros force_cap.
  - simpl. rewrite orb_false_r. reflexivity.
  - rewrite loop_parts_cons. cbn [existsb].
    destruct (mem part subtitle_markers); cbn [fst]; rewrite IH.
    + rewrite orb_true_r. reflexivity.
    + reflexivity.
Qed.


Lemma loop_words_cons n idx force_cap word rest :
  loop_words n idx force_cap (word :: rest) =
  word_output n idx force_cap word
    :: loop_words n (S idx) (flag_after force_cap word) rest.
Proof.
  unfold word_output, flag_after. cbn [loop_words].
  rewrite <- (flag_loop_parts (idx =? 0)%nat (idx =? n - 1)%nat).
  destruct (loop_parts _ _ force_cap (split_markers word)). reflexivity.
Qed.

Lemma split_markers_lower w :
  split_markers (lower w) = map lower (split_markers w).
Proof. apply split_markers_map, is_marker_lower_c. Qed.

Lemma word_output_lower n idx force_cap word :
  word_output n idx force_cap (lower word) = word_output n idx force_cap word.
Proof.
  unfold word_output. rewrite split_markers_lower, loop_parts_lower.
  reflexivity.
Qed.

Lemma lower_word_output n idx force_cap word :
  lower (word_output n idx force_cap word) = lower word.
Proof.
  unfold word_output. rewrite lower_concat, lower_loop_parts.
  rewrite <- lower_concat, concat_split_markers. reflexivity.
Qed.

Lemma existsb_map_ext {A B} (f : B -> bool) (g : A -> B) (h : A -> bool) l :
  (forall x, f (g x) = h x) -> existsb f (map g l) = existsb h l.
Proof. intros E. induction l; simpl; congruence. Qed.

Lemma flag_after_lower force_cap word :
  flag_after force_cap (lower word) = flag_after force_cap word.
Proof.
  unfold flag_after.
  rewrite contains_marker_lower, split_markers_lower.
  rewrite (existsb_map_ext _ _ (fun p => mem p subtitle_markers));
    [reflexivity|].
  intros p. apply (mem_lower_caseless _ _ markers_caseless).
Qed.

Lemma loop_words_lower n words : forall idx force_cap,
  loop_words n idx force_cap (map lower words)
  = loop_words n idx force_cap words.
Proof.
  induction words as [|w ws IH]; intros idx force_cap; [reflexivity|].
  cbn [map]. rewrite !loop_words_cons.
  rewrite word_output_lower, flag_after_lower, IH. reflexivity.
Qed.

Lemma lower_loop_words n words : forall idx force_cap,
  map lower (loop_words n idx force_cap words) = map lower words.
Proof.
  induction words as [|w ws IH]; intros idx force_cap; [reflexivity|].
  rewrite loop_words_cons. cbn [map].
  rewrite lower_word_output, IH. reflexivity.
Qed.

(** ** The fix-up and the word list *)

Lemma lower_set_first f l :
  (forall w, lower (f w) = lower w) ->
  map lower (set_first f l) = map lower l.
Proof. intros Hf. destruct l; simpl; rewrite ?Hf; reflexivity. Qed.

Lemma lower_set_last f l :
  (forall w, lower (f w) = lower w) ->
  map lower (set_last f l) = map lower l.
Proof.
  intros Hf. unfold set_last.
  rewrite map_rev, (lower_set_first _ _ Hf), <- map_rev, rev_involutive.
  reflexivity.
Qed.

Lemma lower_title_words ws : map lower (title_words ws) = map lower ws.
Proof.
  unfold title_words.
  rewrite (lower_set_last _ _ lower_fix_word).
  rewrite (lower_set_first _ _ lower_fix_word).
  apply lower_loop_words.
Qed.

Lemma length_title_words ws : length (title_words ws) = length ws.
Proof.
  rewrite <- (length_map lower (title_words ws)), lower_title_words.
  apply length_map.
Qed.

Lemma title_words_lower ws : title_words (map lower ws) = title_words ws.
Proof.
  unfold title_words. rewrite length_map, loop_words_lower. reflexivity.
Qed.

Lemma title_words_idempotent ws :
  title_words (title_words ws) = title_words ws.
Proof.
  rewrite <- (title_words_lower (title_words ws)), lower_title_words.
  apply title_words_lower.
Qed.

(** ** Splitting on white space *)


Lemma split_ws_good s : Forall good_word (split_ws s).
Proof.
  induction s as [|c s IH]; [constructor|]. simpl.
  destruct (is_space c) eqn:Ec; [exact IH|].
  assert (Hc : good_word [c]).
  { split; [discriminate|]. simpl. rewrite Ec. reflexivity. }
  destruct s as [|d s']; [repeat constructor; apply Hc|].
  destruct (is_space d) eqn:Ed; [constructor; [exact Hc|exact IH]|].
  destruct (split_ws (d :: s')) as [|w ws]; [repeat constructor; apply Hc|].
  inversion IH as [|? ? [Hw1 Hw2] Hws]; subst.
  constructor; [|exact Hws]. split; [discriminate|].
  simpl. rewrite Ec, Hw2. reflexivity.
Qed.

Lemma split_ws_cons c s :
  split_ws (c :: s) =
  if is_space c then split_ws s
  else match s with
       | [] => [[c]]
       | d :: _ =>
           if is_space d then [c] :: split_ws s
           else match split_ws s with
                | w :: ws => (c :: w) :: ws
                | [] => [[c]]
                end
       end.
Proof. reflexivity. Qed.

Lemma good_word_cons c w :
  good_word (c :: w) ->
  is_space c = false /\ (w = [] \/ good_word w).
Proof.
  intros [_ H]. simpl in H. apply andb_true_iff in H.
  destruct H as [Hc Hw]. apply negb_true_iff in Hc. split; [exact Hc|].
  destruct w; [left; reflexivity|right; split; [discriminate|exact Hw]].
Qed.

Lemma split_ws_word_then_space w rest :
  good_word w ->
  split_ws (w ++ lit " " ++ rest) = w :: split_ws rest.
Proof.
  induction w as [|c w IH]; intros H; [destruct H; congruence|].
  apply good_word_cons in H. destruct H as [Hc [->|Hw]].
  - change (split_ws (c :: chr " " :: rest) = [c] :: split_ws rest).
    rewrite split_ws_cons, Hc. reflexivity.
  - change ((c :: w) ++ lit " " ++ rest) with (c :: (w ++ lit " " ++ rest)).
    rewrite split_ws_cons, Hc, (IH Hw).
    destruct w as [|d w']; [destruct Hw; congruence|].
    apply good_word_cons in Hw. destruct Hw as [Hd _].
    change ((d :: w') ++ lit " " ++ rest)
      with (d :: (w' ++ lit " " ++ rest)).
    cbv iota beta. rewrite Hd. reflexivity.
Qed.

Lemma split_ws_word w : good_word w -> split_ws w = [w].
Proof.
  induction w as [|c w IH]; intros H; [destruct H; congruence|].
  apply good_word_cons in H. destruct H as [Hc [->|Hw]].
  - rewrite split_ws_cons, Hc. reflexivity.
  - rewrite split_ws_cons, Hc, (IH Hw).
    destruct w as [|d w']; [destruct Hw; congruence|].
    apply good_word_cons in Hw. destruct Hw as [Hd _].
    rewrite Hd. reflexivity.
Qed.

Lemma split_ws_join ws :
  Forall good_word ws -> split_ws (join (lit " ") ws) = ws.
Proof.
  induction 1 as [|w ws Hw Hws IH]; [reflexivity|].
  destruct ws as [|w' ws].
  - apply split_ws_word, Hw.
  - rewrite join_cons, (split_ws_word_then_space _ _ Hw), IH. reflexivity.
Qed.

Lemma good_word_same_lower a b : lower a = lower b -> good_word a -> good_word b.
Proof.
  intros E [Hne Hsp]. split.
  - intros ->. destruct a; [congruence|discriminate].
  - assert (H : forall w, forallb (fun c => negb (is_space c)) (lower w)
                          = forallb (fun c => negb (is_space c)) w).
    { induction w as [|c w IHw]; [reflexivity|]. simpl.
      rewrite is_space_lower_c. f_equal. exact IHw. }
    rewrite <- H, <- E, H. exact Hsp.
Qed.

Lemma good_words_same_lower l : forall l',
  map lower l = map lower l' -> Forall good_word l -> Forall good_word l'.
Proof.
  induction l as [|a l IH]; intros [|b l'] E H; try discriminate;
    [constructor|].
  injection E as E1 E2. inversion H; subst.
  constructor; [eapply good_word_same_lower; eauto|eapply IH; eauto].
Qed.

Lemma title_words_good ws : Forall good_word ws -> Forall good_word (title_words ws).
Proof.
  apply good_words_same_lower. symmetry. apply lower_title_words.
Qed.

Lemma split_ws_title_case x :
  split_ws (title_case_preserve_numbers x) = title_words (split_ws x).
Proof.
  unfold title_case_preserve_numbers.
  apply split_ws_join, title_words_good, split_ws_good.
Qed.

(** ** Words with and without a subtitle marker *)

Lemma contains_char c w :
  contains [c] w = existsb (fun x => (c =? x)%N) w.
Proof.
  induction w as [|x w IH]; [reflexivity|].
  change (contains [c] (x :: w))
    with (((c =? x)%N && true) || contains [c] w).
  rewrite andb_true_r, IH. reflexivity.
Qed.

Lemma contains_marker_chars w : contains_marker w = existsb is_marker_char w.
Proof.
  unfold contains_marker, subtitle_markers. cbn [existsb].
  change (lit ":") with [chr ":"]. change (lit "~") with [chr "~"].
  change (lit "-") with [chr "-"].
  rewrite !contains_char, orb_false_r.
  induction w as [|x w IH]; [reflexivity|]. cbn [existsb].
  rewrite <- IH. unfold is_marker_char.
  rewrite !(N.eqb_sym x).
  repeat match goal with
  | |- context [(?a =? ?b)%N] => destruct (a =? b)%N
  | |- context [existsb ?f ?l] => destruct (existsb f l)
  end; reflexivity.
Qed.






Lemma plain_not_marker w :
  w <> [] -> contains_marker w = false -> mem w subtitle_markers = false.
Proof.
  intros Hne H. destruct (mem w subtitle_markers) eqn:E; [|reflexivity].
  exfalso. rewrite contains_marker_chars in H.
  unfold mem, subtitle_markers in E. cbn [existsb] in E.
  repeat (apply orb_true_iff in E; destruct E as [E|E]);
    try discriminate; apply eqb_eq in E; subst w; discriminate.
Qed.

(** A word without marker goes through the loop as a single part. *)
Lemma word_output_plain n idx force_cap w :
  w <> [] -> contains_marker w = false ->
  word_output n idx force_cap w
  = if force_cap || (idx =? 0)%nat || (idx =? n - 1)%nat
       || negb (mem (lower w) lowercase_exceptions)
    then cap_special w else lower w.
Proof.
  intros Hne H. unfold word_output.
  pose proof (plain_not_marker _ Hne H) as Hm.
  rewrite contains_marker_chars in H.
  rewrite (split_markers_plain _ H), loop_parts_cons, Hm.
  cbn [snd loop_parts concat]. rewrite app_nil_r.
  unfold part_output.
  destruct (force_cap || (idx =? 0)%nat || (idx =? n - 1)%nat || _);
    [|reflexivity].
  rewrite split_char_no_sep; [simpl; reflexivity|].
  apply not_true_is_false. intros Hx. apply not_false_iff_true in H; [exact H|].
  clear -Hx. induction w as [|x w IH]; [discriminate|]. simpl in *.
  apply orb_true_iff in Hx. destruct Hx as [Hx|Hx].
  - apply N.eqb_eq in Hx. subst x. reflexivity.
  - rewrite (IH Hx). apply orb_true_r.
Qed.

Lemma mem_In x xs : mem x xs = true -> In x xs.
Proof.
  unfold mem. intros H. apply existsb_exists in H.
  destruct H as (y & Hy & E). apply eqb_eq in E. subst y. exact Hy.
Qed.



Lemma length_loop_words n words : forall idx force_cap,
  length (loop_words n idx force_cap words) = length words.
Proof.
  intros idx force_cap.
  rewrite <- (length_map lower), lower_loop_words. apply length_map.
Qed.

Lemma loop_words_app n ws1 : forall idx force_cap ws2,
  loop_words n idx force_cap (ws1 ++ ws2)
  = loop_words n idx force_cap ws1
    ++ loop_words n (length ws1 + idx)
                  (fold_left flag_after ws1 force_cap) ws2.
Proof.
  induction ws1 as [|w ws1 IH]; intros idx force_cap ws2; [reflexivity|].
  cbn [app]. rewrite !loop_words_cons, IH. cbn [app length fold_left].
  rewrite Nat.add_succ_r. reflexivity.
Qed.


Lemma length_set_first f l : length (set_first f l) = length l.
Proof. destruct l; reflexivity. Qed.

Lemma set_last_snoc f l x : set_last f (l ++ [x]) = l ++ [f x].
Proof.
  unfold set_last. rewrite rev_app_distr. simpl.
  rewrite rev_involutive. reflexivity.
Qed.

Lemma nth_error_set_last f l i :
  nth_error (set_last f l) i =
  if (S i =? length l)%nat then option_map f (nth_error l i)
  else nth_error l i.
Proof.
  destruct (rev l) as [|x r] eqn:E.
  - apply (f_equal (@rev _)) in E. rewrite rev_involutive in E. subst l.
    destruct i; reflexivity.
  - apply (f_equal (@rev _)) in E. rewrite rev_involutive in E.
    simpl in E. subst l. rewrite set_last_snoc, length_app.
    cbn [length]. destruct (Nat.lt_trichotomy i (length (rev r))) as [H|[H|H]].
    + rewrite !nth_error_app1 by exact H.
      destruct (Nat.eqb_spec (S i) (length (rev r) + 1)); [lia|reflexivity].
    + subst i. rewrite !nth_error_app2 by lia. rewrite Nat.sub_diag.
      destruct (Nat.eqb_spec (S (length (rev r))) (length (rev r) + 1));
        [reflexivity|lia].
    + rewrite (proj2 (nth_error_None _ _)) by (rewrite length_app; simpl; lia).
      rewrite (proj2 (nth_error_None (rev r ++ [x]) i))
        by (rewrite length_app; simpl; lia).
      destruct (S i =? length (rev r) + 1)%nat; reflexivity.
Qed.



(** ** White space collapsed and trimmed *)

Lemma lstrip_snoc_cases l c :
  lstrip (l ++ [c]) =
  match lstrip l with
  | [] => lstrip [c]
  | r => r ++ [c]
  end.
Proof.
  induction l as [|x l IH]; [reflexivity|].
  cbn [app lstrip]. destruct (is_space x); [exact IH|reflexivity].
Qed.

Lemma rstrip_cons c t :
  rstrip (c :: t) =
  match rstrip t with
  | [] => if is_space c then [] else [c]
  | r => c :: r
  end.
Proof.
  unfold rstrip. cbn [rev]. rewrite lstrip_snoc_cases.
  destruct (lstrip (rev t)) as [|y r] eqn:E.
  - cbn [lstrip rev]. destruct (is_space c); reflexivity.
  - rewrite rev_app_distr. cbn [rev app].
    destruct (rev r ++ [y]) eqn:E'; [|reflexivity].
    destruct (rev r); discriminate.
Qed.

Lemma lstrip_collapse_runs s :
  lstrip (collapse_runs s) = collapse_runs (lstrip s).
Proof.
  induction s as [|c s IH]; [reflexivity|].
  cbn [collapse_runs lstrip]. destruct (is_space c) eqn:Ec.
  - destruct s as [|d s']; [reflexivity|].
    destruct (is_space d) eqn:Ed; [exact IH|].
    change (lstrip (chr " " :: collapse_runs (d :: s')))
      with (lstrip (collapse_runs (d :: s'))).
    exact IH.
  - cbn [lstrip]. rewrite Ec. cbn [collapse_runs]. rewrite Ec. reflexivity.
Qed.

Lemma split_ws_lstrip s : split_ws (lstrip s) = split_ws s.
Proof.
  induction s as [|c s IH]; [reflexivity|].
  cbn [lstrip]. destruct (is_space c) eqn:Ec; [|reflexivity].
  rewrite (split_ws_cons c s), Ec. exact IH.
Qed.

Lemma split_ws_head c s :
  is_space c = false -> exists w ws, split_ws (c :: s) = (c :: w) :: ws.
Proof.
  intros Hc. rewrite split_ws_cons, Hc.
  destruct s as [|d s']; [eauto|].
  destruct (is_space d); [eauto|].
  destruct (split_ws (d :: s')); eauto.
Qed.

Lemma join_head_cons sep c w ws :
  join sep ((c :: w) :: ws) = c :: join sep (w :: ws).
Proof. destruct ws; reflexivity. Qed.

(** What trimming on the right leaves of the collapsed runs. *)
Lemma rstrip_collapse_runs s :
  rstrip (collapse_runs s) =
  match s with
  | [] => []
  | c :: _ =>
      if is_space c then
        match split_ws s with
        | [] => []
        | ws => chr " " :: join (lit " ") ws
        end
      else join (lit " ") (split_ws s)
  end.
Proof.
  induction s as [|c s IH]; [reflexivity|].
  cbn [collapse_runs]. rewrite (split_ws_cons c s).
  destruct (is_space c) eqn:Ec.
  - destruct s as [|d s']; [reflexivity|].
    destruct (is_space d) eqn:Ed; [exact IH|].
    rewrite rstrip_cons, IH.
    destruct (split_ws_head d s' Ed) as (w & ws & ->).
    destruct ws; reflexivity.
  - rewrite rstrip_cons, IH, Ec.
    destruct s as [|d s']; [reflexivity|].
    destruct (is_space d) eqn:Ed.
    + destruct (split_ws (d :: s')) as [|w ws]; reflexivity.
    + destruct (split_ws_head d s' Ed) as (w & ws & ->).
      destruct ws; reflexivity.
Qed.

Lemma lstrip_head s d r : lstrip s = d :: r -> is_space d = false.
Proof.
  induction s as [|x s IH]; [discriminate|].
  cbn [lstrip]. destruct (is_space x) eqn:Ex; [exact IH|].
  intros E. injection E as <- _. exact Ex.
Qed.

(** Python's idiom of joining the split words by single spaces yields the
    white-space normal form. *)
Lemma join_split_ws s : join (lit " ") (split_ws s) = collapse_whitespace s.
Proof.
  unfold collapse_whitespace, strip.
  rewrite lstrip_collapse_runs, rstrip_collapse_runs, split_ws_lstrip.
  destruct (lstrip s) as [|d r] eqn:E.
  - rewrite <- (split_ws_lstrip s), E. reflexivity.
  - rewrite (lstrip_head _ _ _ E). reflexivity.
Qed.






Lemma title_case_twice y :
  title_case_preserve_numbers (title_case_preserve_numbers y)
  = title_case_preserve_numbers y.
Proof.
  unfold title_case_preserve_numbers at 1.
  rewrite split_ws_title_case, title_words_idempotent. reflexivity.
Qed.





(** ** The roman-numeral matcher *)

Lemma last_is_space_rev w nl t :
  forallb (fun c => negb (is_space c)) w = true ->
  rev w = nl :: t -> (nl =? 10)%N = false.
Proof.
  intros Hw E.
  assert (Hin : In nl w) by (apply in_rev; rewrite E; left; reflexivity).
  rewrite forallb_forall in Hw. specialize (Hw _ Hin).
  apply negb_true_iff in Hw.
  destruct (N.eqb_spec nl 10) as [->|]; [discriminate|reflexivity].
Qed.

(** C8 (counterexample). The matcher accepts the empty string. *)
Lemma is_roman_numeral_accepts_empty : is_roman_numeral [] = true.
Proof. reflexivity. Qed.

(** C8 (amended). For an ASCII token (a string without white space),
    [is_roman_numeral] holds exactly when the token is in the language of
    the grammar M{0,4}(CM|CD|D?C{0,3})(XC|XL|L?X{0,3})(IX|IV|V?I{0,3}), read
    without regard to case; such a token is returned in upper case by
    [cap_special]; and the empty token is in the language. *)
Theorem roman_numeral_grammar (w : str) :
  ascii_str w ->
  forallb (fun c => negb (is_space c)) w = true ->
  (is_roman_numeral w = true <-> matches true ROMAN_NUMERAL_PATTERN w)
  /\ (is_roman_numeral w = true -> cap_special w = upper w)
  /\ matches true ROMAN_NUMERAL_PATTERN [].
Proof.
  intros _ Hw. split; [|split].
  - unfold is_roman_numeral, match_anchored.
    rewrite <- accepts_correct.
    destruct (rev w) as [|nl t] eqn:E; [rewrite orb_false_r; tauto|].
    rewrite (last_is_space_rev _ _ _ Hw E), orb_false_r. tauto.
  - intros H. unfold cap_special. rewrite H.
    destruct (mem (upper w) ACRONYMS); reflexivity.
  - apply accepts_correct. reflexivity.
Qed.

Lemma roman_numeral_grammar_witness :
  matches true ROMAN_NUMERAL_PATTERN (lit "mcmxciv")
  /\ cap_special (lit "mcmxciv") = lit "MCMXCIV".
Proof.
  assert (Ha : ascii_str (lit "mcmxciv")) by (repeat constructor).
  assert (Hs : forallb (fun c => negb (is_space c)) (lit "mcmxciv") = true)
    by reflexivity.
  destruct (roman_numeral_grammar _ Ha Hs) as (H1 & H2 & _).
  split; [apply H1; reflexivity|apply H2; reflexivity].
Defined.

(** ** The Title-ID scan *)

Import TitleId.


Lemma title_id_at_spec s id :
  title_id_at s = Some id <-> occurs_at s 0 id.
Proof.
  unfold title_id_at, occurs_at. split.
  - destruct s as [|c s']; [discriminate|]. cbv zeta.
    pose proof (firstn_skipn 16 s') as Hfs.
    remember (firstn 16 s') as i eqn:Ei.
    remember (skipn 16 s') as r eqn:Er. clear Ei Er.
    destruct (c =? chr "[")%N eqn:Ec; [|discriminate].
    destruct (length i =? 16)%nat eqn:El; [|discriminate].
    destruct (forallb is_hex i) eqn:Eh; [|discriminate].
    destruct r as [|d post]; [discriminate|].
    cbn [andb]. destruct (d =? chr "]")%N eqn:Ed; [|discriminate].
    intros E. injection E as ->.
    apply N.eqb_eq in Ec, Ed. apply Nat.eqb_eq in El. subst c d s'.
    exists [], post. auto.
  - intros (pre & post & -> & Hp & Hl & Hh).
    destruct pre; [|discriminate]. cbn [app].
    rewrite N.eqb_refl.
    assert (E1 : firstn 16 (id ++ chr "]" :: post) = id).
    { rewrite <- Hl. rewrite firstn_app, Nat.sub_diag, firstn_all.
      cbn [firstn]. apply app_nil_r. }
    assert (E2 : skipn 16 (id ++ chr "]" :: post) = chr "]" :: post).
    { rewrite <- Hl. rewrite skipn_app, Nat.sub_diag, skipn_all.
      reflexivity. }
    rewrite E1, E2, Hl, Hh, N.eqb_refl. reflexivity.
Qed.

Lemma occurs_at_cons c s k id :
  occurs_at (c :: s) (S k) id <-> occurs_at s k id.
Proof.
  unfold occurs_at. split.
  - intros (pre & post & E & Hp & H).
    destruct pre as [|x pre]; [discriminate|].
    injection E as -> ->. injection Hp as Hp. exists pre, post. auto.
  - intros (pre & post & -> & Hp & H).
    exists (c :: pre), post. cbn [length app]. auto.
Qed.

Lemma search_title_id_cons c s :
  search_title_id (c :: s) =
  match title_id_at (c :: s) with
  | Some id => Some id
  | None => search_title_id s
  end.
Proof. reflexivity. Qed.

Lemma search_title_id_some content : forall id,
  search_title_id content = Some id <->
  exists k, occurs_at content k id
            /\ forall k' id', occurs_at content k' id' -> (k <= k')%nat.
Proof.
  induction content as [|c s IH]; intros id.
  - split; [discriminate|].
    intros (k & (pre & post & E & _) & _). destruct pre; discriminate.
  - rewrite search_title_id_cons.
    destruct (title_id_at (c :: s)) as [id0|] eqn:E0.
    + apply title_id_at_spec in E0. split.
      * intros E. injection E as <-. exists 0%nat. split; [exact E0|].
        intros; lia.
      * intros (k & Hk & Hmin). specialize (Hmin _ _ E0).
        assert (k = 0)%nat by lia. subst k.
        destruct E0 as (p0 & q0 & E0 & Hp0 & Hl0 & _).
        destruct Hk as (p1 & q1 & E1 & Hp1 & Hl1 & _).
        destruct p0; [|discriminate]. destruct p1; [|discriminate].
        cbn [app] in *. rewrite E0 in E1. injection E1 as E1.
        f_equal.
        apply (f_equal (firstn 16)) in E1.
        rewrite <- Hl0 in E1 at 1. rewrite <- Hl1 in E1.
        rewrite !firstn_app, !Nat.sub_diag, !firstn_all in E1.
        cbn [firstn] in E1. rewrite !app_nil_r in E1. exact E1.
    + rewrite IH. split.
      * intros (k & Hk & Hmin). exists (S k). split.
        -- apply occurs_at_cons. exact Hk.
        -- intros [|k'] id' H'.
           ++ apply title_id_at_spec in H'. congruence.
           ++ apply occurs_at_cons in H'. specialize (Hmin _ _ H'). lia.
      * intros (k & Hk & Hmin). destruct k as [|k].
        -- apply title_id_at_spec in Hk. congruence.
        -- exists k. split; [apply occurs_at_cons in Hk; exact Hk|].
           intros k' id' H'. apply (occurs_at_cons c) in H'.
           specialize (Hmin _ _ H'). lia.
Qed.

Lemma search_title_id_none content :
  search_title_id content = None <->
  forall k id, ~ occurs_at content k id.
Proof.
  induction content as [|c s IH].
  - split; [|reflexivity].
    intros _ k id (pre & post & E & _). destruct pre; discriminate.
  - rewrite search_title_id_cons.
    destruct (title_id_at (c :: s)) as [id0|] eqn:E0.
    + split; [discriminate|]. intros H.
      apply title_id_at_spec in E0. destruct (H _ _ E0).
    + rewrite IH. split.
      * intros H [|k] id H'.
        -- apply title_id_at_spec in H'. congruence.
        -- apply occurs_at_cons in H'. exact (H _ _ H').
      * intros H k id H'. apply (occurs_at_cons c) in H'. exact (H _ _ H').
Qed.

Lemma search_without_bracket s :
  existsb (fun c => (c =? chr "[")%N) s = false -> search_title_id s = None.
Proof.
  induction s as [|c s IH]; [reflexivity|].
  cbn [existsb]. intros H. apply orb_false_iff in H. destruct H as [Hc Hs].
  rewrite search_title_id_cons. unfold title_id_at. rewrite Hc.
  cbn [andb]. exact (IH Hs).
Qed.

Lemma hex_not_bracket c :
  is_hex c = true -> (c =? chr "[")%N = false /\ (c =? chr "]")%N = false.
Proof.
  unfold is_hex, is_digit, chr. simpl N_of_ascii. intros H.
  split; apply N.eqb_neq; intros ->; discriminate.
Qed.

Lemma bracketed_token_other_length t :
  forallb is_hex t = true -> length t <> 16%nat ->
  search_title_id (chr "[" :: t ++ [chr "]"]) = None.
Proof.
  intros Hh Hl. rewrite search_title_id_cons.
  assert (Hat : title_id_at (chr "[" :: t ++ [chr "]"]) = None).
  { destruct (title_id_at _) as [id|] eqn:E; [|reflexivity]. exfalso.
    apply title_id_at_spec in E.
    destruct E as (pre & post & E & Hp & Hlen & Hid).
    destruct pre; [|discriminate]. cbn [app] in E. injection E as E.
    destruct (Nat.lt_trichotomy (length t) 16) as [Hlt|[Heq|Hgt]];
      [|contradiction|].
    - apply (f_equal (fun l => nth_error l (length t))) in E.
      cbv beta in E.
      rewrite nth_error_app2, Nat.sub_diag in E by lia.
      rewrite nth_error_app1 in E by lia.
      change (nth_error [chr "]"] 0) with (Some (chr "]")) in E.
      symmetry in E. apply nth_error_In in E.
      rewrite forallb_forall in Hid. apply Hid, hex_not_bracket in E.
      destruct E as [_ E]. rewrite N.eqb_refl in E. discriminate.
    - apply (f_equal (fun l => nth_error l (length id))) in E.
      cbv beta in E.
      rewrite nth_error_app1 in E by lia.
      rewrite nth_error_app2, Nat.sub_diag in E by lia.
      change (nth_error (chr "]" :: post) 0) with (Some (chr "]")) in E.
      apply nth_error_In in E.
      rewrite forallb_forall in Hh. apply Hh, hex_not_bracket in E.
      destruct E as [_ E]. rewrite N.eqb_refl in E. discriminate. }
  rewrite Hat. apply search_without_bracket.
  rewrite existsb_app.
  assert (Ht : existsb (fun c => (c =? chr "[")%N) t = false).
  { clear -Hh. induction t as [|c t IH]; [reflexivity|].
    cbn [existsb forallb] in *.
    apply andb_true_iff in Hh. destruct Hh as [Hc Ht].
    rewrite (proj1 (hex_not_bracket _ Hc)). exact (IH Ht). }
  apply orb_false_iff. split; [exact Ht|reflexivity].
Qed.

(** C6. The scan returns the leftmost bracketed run of exactly sixteen
    hexadecimal digits (either case); it returns nothing exactly when the
    text has no such run; a bracketed token of hexadecimal digits of any
    other length, 15 and 17 included, gives nothing. *)
Theorem title_id_scan (content : str) :
  (forall id,
     search_title_id content = Some id <->
     exists k, occurs_at content k id
               /\ forall k' id', occurs_at content k' id' -> (k <= k')%nat)
  /\ (search_title_id content = None <->
      forall k id, ~ occurs_at content k id)
  /\ (forall t, forallb is_hex t = true ->
                (length t = 15 \/ length t = 17)%nat ->
                search_title_id (chr "[" :: t ++ [chr "]"]) = None).
Proof.
  split; [apply search_title_id_some|]. split; [apply search_title_id_none|].
  intros t Hh Hl. apply bracketed_token_other_length; [exact Hh|lia].
Qed.

Lemma title_id_scan_witness :
  search_title_id (lit "[0100ABCDEF01234]") = None
  /\ search_title_id (lit "[0100ABCDEF0123456]") = None
  /\ search_title_id (lit "x [0100abcdEF012345] [FFFFFFFFFFFFFFFF]")
     = Some (lit "0100abcdEF012345").
Proof.
  split; [|split].
  - refine (proj2 (proj2 (title_id_scan [])) (lit "0100ABCDEF01234") _ _);
      [reflexivity|left; reflexivity].
  - refine (proj2 (proj2 (title_id_scan [])) (lit "0100ABCDEF0123456") _ _);
      [reflexivity|right; reflexivity].
  - apply (proj1 (title_id_scan _)). exists 2%nat. split.
    + exists (lit "x "), (lit " [FFFFFFFFFFFFFFFF]"). repeat split.
    + intros k' id' (pre & post & E & Hp & Hl & Hh).
      destruct k' as [|[|k']]; [| |lia].
      * destruct pre; discriminate.
      * destruct pre as [|a [|b pre]]; discriminate.
Defined.

(** ** The sanitizer *)

Section Sanitizer.

Context `{UnicodeData}.

Lemma ascii_fold_app a b : ascii_fold (a ++ b) = ascii_fold a ++ ascii_fold b.
Proof.
  unfold ascii_fold. rewrite flat_map_app, filter_app. reflexivity.
Qed.

Lemma ascii_fold_ascii s : ascii_str s -> ascii_fold s = s.
Proof.
  unfold ascii_fold. induction 1 as [|c s Hc _ IH]; [reflexivity|].
  cbn [flat_map]. rewrite (decompose_ascii _ Hc).
  cbn [app filter]. rewrite Hc, IH. reflexivity.
Qed.

Lemma sanitize_name_ascii s : ascii_str s -> sanitize_name s = sanitize_ascii s.
Proof. intros Hs. unfold sanitize_name. rewrite (ascii_fold_ascii _ Hs). reflexivity. Qed.

Lemma clean_title_ascii s :
  ascii_str s ->
  clean_title s = title_case_preserve_numbers (sanitize_ascii s).
Proof.
  intros Hs. unfold clean_title. rewrite (sanitize_name_ascii _ Hs).
  reflexivity.
Qed.

End Sanitizer.

(** What the sanitizer returns is ASCII, whatever it is given: these are
    the labels the title caser receives. *)
Lemma ascii_str_app a b : ascii_str a -> ascii_str b -> ascii_str (a ++ b).
Proof. intros Ha Hb. apply Forall_app. auto. Qed.

Lemma ascii_str_replace_from old new s : forall skip,
  ascii_str new -> ascii_str s -> ascii_str (replace_from old new skip s).
Proof.
  intros skip Hn Hs. revert skip.
  induction Hs as [|c s Hc Hs IH]; intros skip; cbn [replace_from];
    [constructor|].
  destruct skip; [|apply IH].
  destruct (startswith old (c :: s)).
  - apply ascii_str_app; [exact Hn|apply IH].
  - constructor; [exact Hc|apply IH].
Qed.

Lemma ascii_str_sub_bros_from s : forall skip prev,
  ascii_str s -> ascii_str (sub_bros_from skip prev s).
Proof.
  intros skip prev Hs. revert skip prev.
  induction Hs as [|c s Hc Hs IH]; intros skip prev; cbn [sub_bros_from];
    [constructor|].
  destruct skip; [|apply IH].
  destruct (bros_at prev (c :: s)).
  - apply ascii_str_app; [repeat constructor|apply IH].
  - constructor; [exact Hc|apply IH].
Qed.

Lemma ascii_str_split_ws s : ascii_str s -> Forall ascii_str (split_ws s).
Proof.
  induction 1 as [|c s Hc Hs IH]; [constructor|].
  rewrite split_ws_cons. destruct (is_space c); [exact IH|].
  destruct s as [|d s']; [repeat constructor; exact Hc|].
  destruct (is_space d); [constructor; [repeat constructor; exact Hc|exact IH]|].
  destruct (split_ws (d :: s')) as [|w ws]; [repeat constructor; exact Hc|].
  inversion IH; subst. constructor; [constructor; assumption|assumption].
Qed.

Lemma ascii_str_join sep ws :
  ascii_str sep -> Forall ascii_str ws -> ascii_str (join sep ws).
Proof.
  intros Hsep. induction 1 as [|w ws Hw Hws IH]; [constructor|].
  destruct ws as [|w' ws]; [exact Hw|].
  rewrite join_cons. apply ascii_str_app; [exact Hw|].
  apply ascii_str_app; [exact Hsep|exact IH].
Qed.

Lemma ascii_str_lstrip s : ascii_str s -> ascii_str (lstrip s).
Proof.
  induction 1 as [|c s Hc Hs IH]; [constructor|].
  cbn [lstrip]. destruct (is_space c); [exact IH|constructor; assumption].
Qed.

Lemma ascii_str_strip s : ascii_str s -> ascii_str (strip s).
Proof.
  intros Hs. unfold strip, rstrip.
  apply Forall_rev, ascii_str_lstrip, Forall_rev, ascii_str_lstrip, Hs.
Qed.

Lemma sanitize_ascii_is_ascii n : ascii_str n -> ascii_str (sanitize_ascii n).
Proof.
  intros Hn. unfold sanitize_ascii.
  apply ascii_str_strip, ascii_str_join; [repeat constructor|].
  apply ascii_str_split_ws, ascii_str_sub_bros_from.
  apply ascii_str_replace_from; [repeat constructor|].
  unfold quote_chars. cbn [fold_left].
  repeat (apply ascii_str_replace_from; [constructor|]). exact Hn.
Qed.

Lemma sanitize_name_is_ascii `{UnicodeData} raw : ascii_str (sanitize_name raw).
Proof.
  apply sanitize_ascii_is_ascii. unfold ascii_fold, ascii_str.
  apply Forall_forall. intros c Hc. apply filter_In in Hc. apply Hc.
Qed.

(** A cleaned title is a fixed point of the title caser. *)
Lemma clean_title_stable `{UnicodeData} raw :
  title_case_preserve_numbers (clean_title raw) = clean_title raw.
Proof. apply title_case_twice. Qed.

Lemma ascii_str_check s : forallb is_ascii s = true -> ascii_str s.
Proof. intros Hs. apply Forall_forall. apply forallb_forall. exact Hs. Qed.

(** C9. The two examples of the sanitizer, the first with e-acute
    (U+00E9) given as one code point that decomposes into the letter e and
    the combining acute accent (U+0301): the accent and the apostrophe go,
    the colon stays; "Bros." before white space becomes "Bros" and the run
    of spaces becomes one. *)
Theorem sanitize_examples `{UnicodeData} :
  decompose 233 = [chr "e"; 769%N] ->
  sanitize_name (lit "Pok" ++ [233%N] ++ lit "mon: Let's Go!")
  = lit "Pokemon: Lets Go!"
  /\ sanitize_name (lit "Mario Bros.  Deluxe") = lit "Mario Bros Deluxe".
Proof.
  intros He. split.
  - unfold sanitize_name. rewrite !ascii_fold_app.
    rewrite (ascii_fold_ascii (lit "Pok")),
            (ascii_fold_ascii (lit "mon: Let's Go!"))
      by (apply ascii_str_check; reflexivity).
    unfold ascii_fold. cbn [flat_map]. rewrite He. reflexivity.
  - rewrite sanitize_name_ascii by (apply ascii_str_check; reflexivity).
    reflexivity.
Qed.

Lemma sanitize_examples_witness :
  @sanitize_name latin1 (lit "Pok" ++ [233%N] ++ lit "mon: Let's Go!")
  = lit "Pokemon: Lets Go!"
  /\ @sanitize_name latin1 (lit "Mario Bros.  Deluxe")
     = lit "Mario Bros Deluxe".
Proof. apply (@sanitize_examples latin1). reflexivity. Defined.

(** ** The path interpreters *)

Lemma split_str_from_not_nil sep s : forall skip cur,
  split_str_from sep skip cur s <> [].
Proof.
  induction s as [|c s IH]; intros skip cur; cbn [split_str_from].
  - discriminate.
  - destruct skip; [|apply IH].
    destruct (startswith sep (c :: s)); [discriminate|apply IH].
Qed.

Lemma contains_cons p c s :
  contains p (c :: s) = startswith p (c :: s) || contains p s.
Proof. reflexivity. Qed.

Lemma split_str_two sep s : forall cur,
  contains sep s = true -> sep <> [] ->
  (2 <= length (split_str_from sep 0 cur s))%nat.
Proof.
  induction s as [|c s IH]; intros cur Hc Hsep.
  - destruct sep; [congruence|discriminate].
  - cbn [split_str_from]. rewrite contains_cons in Hc.
    destruct (startswith sep (c :: s)).
    + cbn [length].
      pose proof (split_str_from_not_nil sep s (length sep - 1) []) as Hn.
      destruct (split_str_from sep (length sep - 1) [] s);
        [congruence|cbn [length]; lia].
    + apply IH; assumption.
Qed.

Lemma item_ok {A} (l : list A) i :
  (i < length l)%nat -> exists a, item l i = Ok a.
Proof.
  intros Hi. unfold item.
  destruct (nth_error l i) eqn:E; [eauto|].
  apply nth_error_None in E. lia.
Qed.

(** The [", The"] rule never fails: where the marker occurs, the split
    has at least two fields. *)
Lemma move_the_ok s : exists r, move_the s = Ok r.
Proof.
  unfold move_the. destruct (contains (lit ", The") s) eqn:E; [|eauto].
  pose proof (split_str_two (lit ", The") s [] E) as H2.
  fold (split_str (lit ", The") s) in H2.
  destruct (item_ok (split_str (lit ", The") s) 0) as [p0 E0];
    [apply le_S_n, le_S, H2; discriminate|].
  destruct (item_ok (split_str (lit ", The") s) 1) as [p1 E1];
    [apply H2; discriminate|].
  rewrite E0, E1. cbn [bind]. eauto.
Qed.

Lemma keaton_transform_ok s : exists r, Keaton.transform_game_name s = Ok r.
Proof.
  unfold Keaton.transform_game_name.
  destruct (move_the_ok s) as [r ->]. cbn [bind]. eauto.
Qed.

Lemma theboy181_transform_ok s :
  exists r, Theboy181.transform_game_name_raw s = Ok r.
Proof.
  unfold Theboy181.transform_game_name_raw.
  destruct (move_the_ok s) as [r ->]. cbn [bind]. eauto.
Qed.

Lemma relpath_parts_cons below :
  exists p ps, relpath_parts below = p :: ps.
Proof. destruct below; simpl; eauto. Qed.

Lemma item_back_1 {A} (p : A) ps : exists a, item_back (p :: ps) 1 = Ok a.
Proof.
  unfold item_back. cbn [length Nat.leb]. apply item_ok. cbn [length]. lia.
Qed.

Lemma item_back_2 {A} (l : list A) :
  (2 <= length l)%nat -> exists a, item_back l 2 = Ok a.
Proof.
  intros H. unfold item_back.
  destruct (Nat.leb_spec 2 (length l)); [|lia]. apply item_ok. lia.
Qed.

Section Interpreters.

Context `{UnicodeData}.

(** theboy181 and StevensND guard every index: they never raise. *)
Lemma theboy181_never_raises root below :
  exists g m, Theboy181.get_game_name_and_mod_name root below = Ok (g, m).
Proof.
  unfold Theboy181.get_game_name_and_mod_name.
  destruct (relpath_parts_cons below) as (p & ps & ->).
  cbn [item nth_error bind].
  destruct (theboy181_transform_ok (strip (remove_brackets p))) as [r ->].
  cbn [bind].
  destruct (contains (lit "Aspect Ratio") (join sep (p :: ps)));
    [cbn [bind]; eauto|].
  destruct (item_back_1 p ps) as [l ->]. cbn [bind].
  destruct (has_version_marker l).
  - destruct (Nat.ltb_spec 2 (length (p :: ps))) as [Hl|Hl].
    + destruct (item_back_2 (p :: ps)) as [a ->]; [lia|]. cbn [bind]. eauto.
    + cbn [bind]. eauto.
  - destruct (Nat.ltb_spec 1 (length (p :: ps))) as [Hl|Hl].
    + destruct (item_back_2 (p :: ps)) as [a ->]; [lia|]. cbn [bind]. eauto.
    + cbn [bind]. eauto.
Qed.

Lemma stevensnd_never_raises root below :
  exists g m, StevensND.get_game_name_and_mod_name root below = Ok (g, m).
Proof.
  unfold StevensND.get_game_name_and_mod_name.
  destruct (relpath_parts_cons below) as (p & ps & ->).
  cbn [item nth_error bind].
  destruct (move_the_ok (strip (remove_brackets p))) as [r ->].
  cbn [bind]. eauto.
Qed.

(** KeatonTheBot raises exactly on a path of one segment that has a
    version marker and no "Aspect Ratio". *)
Lemma keaton_raises_iff root below :
  Keaton.get_game_name_and_mod_name root below = Raise IndexError <->
  exists s, below = [s]
            /\ contains (lit "Aspect Ratio") s = false
            /\ has_version_marker s = true.
Proof.
  unfold Keaton.get_game_name_and_mod_name.
  destruct (relpath_parts_cons below) as (p & ps & Ep). rewrite Ep.
  cbn [item nth_error bind].
  destruct (keaton_transform_ok (strip (remove_brackets p))) as [r ->].
  cbn [bind].
  destruct (contains (lit "Aspect Ratio") (join sep (p :: ps))) eqn:Ea.
  - cbn [bind]. split; [discriminate|].
    intros (s & -> & Hc & _). cbn in Ep. injection Ep as <- <-.
    cbn [join] in Ea. congruence.
  - destruct (item_back_1 p ps) as [l El]. rewrite El. cbn [bind].
    destruct ps as [|q ps].
    + unfold item_back in El. cbn in El. injection El as <-.
      destruct (has_version_marker p) eqn:Ev.
      * cbn. split; [intros _|reflexivity].
        destruct below as [|s [|? ?]]; cbn in Ep.
        -- injection Ep as <-. discriminate.
        -- injection Ep as <-. exists s. cbn [join] in Ea. auto.
        -- discriminate.
      * cbn. split; [discriminate|].
        intros (s & -> & _ & Hv). cbn in Ep. injection Ep as <-. congruence.
    + destruct (item_back_2 (p :: q :: ps)) as [a Ea2]; [cbn; lia|].
      assert (Hl : (2 <=? length (p :: q :: ps))%nat = true) by reflexivity.
      rewrite Ea2, Hl. split.
      * destruct (has_version_marker l); cbn [bind]; discriminate.
      * intros (s & -> & _). discriminate.
Qed.

End Interpreters.

(** C3. KeatonTheBot raises [IndexError] for a single path segment
    below the root that contains a version marker (and no "Aspect Ratio"):
    the version branch indexes [parts[-2]] without the length guard of its
    neighbour branch.  theboy181 and StevensND return names for the same
    path. *)
Theorem keaton_raises_on_version_segment `{UnicodeData}
    (root : list str) (s : str) :
  ascii_str s ->
  contains (lit "Aspect Ratio") s = false ->
  has_version_marker s = true ->
  Keaton.get_game_name_and_mod_name root [s] = Raise IndexError
  /\ (exists g m, Theboy181.get_game_name_and_mod_name root [s] = Ok (g, m))
  /\ (exists g m, StevensND.get_game_name_and_mod_name root [s] = Ok (g, m)).
Proof.
  intros _ Ha Hv. split; [|split].
  - apply keaton_raises_iff. exists s. auto.
  - apply theboy181_never_raises.
  - apply stevensnd_never_raises.
Qed.

Lemma keaton_raises_on_version_segment_witness :
  @Keaton.get_game_name_and_mod_name latin1 [lit "repo"] [lit "Game v1"]
  = Raise IndexError.
Proof.
  refine (proj1 (@keaton_raises_on_version_segment latin1 [lit "repo"]
                   (lit "Game v1") _ _ _)).
  - apply ascii_str_check. reflexivity.
  - reflexivity.
  - reflexivity.
Defined.

(** *** The aspect-ratio rule *)

Lemma lstrip_snoc c l :
  is_space c = false -> exists l', lstrip (l ++ [c]) = l' ++ [c].
Proof.
  intros Hc. induction l as [|x l IH].
  - exists []. simpl. rewrite Hc. reflexivity.
  - cbn [app lstrip]. destruct (is_space x); [exact IH|].
    exists (x :: l). reflexivity.
Qed.

Lemma strip_head c s :
  is_space c = false -> exists t, strip (c :: s) = c :: t.
Proof.
  intros Hc. unfold strip. cbn [lstrip]. rewrite Hc.
  unfold rstrip. cbn [rev].
  destruct (lstrip_snoc c (rev s) Hc) as [l' ->].
  rewrite rev_app_distr. cbn [rev app]. eauto.
Qed.

Lemma replace_head old new c s :
  startswith old (c :: s) = false ->
  exists t, replace old new (c :: s) = c :: t.
Proof.
  intros Hs. unfold replace. cbn [replace_from]. rewrite Hs. eauto.
Qed.

Lemma theboy181_rewrites_aspect x :
  exists t, theboy181_rewrites (lit "Aspect Ratio " ++ x) = chr "A" :: t.
Proof.
  unfold theboy181_rewrites.
  destruct (strip_head (chr "A") (lit "spect Ratio " ++ x) eq_refl)
    as [t0 E0].
  change (lit "Aspect Ratio " ++ x)
    with (chr "A" :: lit "spect Ratio " ++ x).
  rewrite E0.
  destruct (replace_head (lit "'") (lit ".") (chr "A") t0 eq_refl)
    as [t1 ->].
  destruct (replace_head (lit "`") (lit ".") (chr "A") t1 eq_refl)
    as [t2 ->].
  destruct (replace_head (lit "21-9") (lit "21.9") (chr "A") t2 eq_refl)
    as [t3 ->].
  destruct (replace_head (lit ":") [] (chr "A") t3 eq_refl) as [t4 ->].
  eauto.
Qed.

(** C7. Where the relative path contains "Aspect Ratio", every variant
    takes the mod label from the aspect-ratio rule, whatever the last
    segment looks like.  StevensND and theboy181 name the deepest folder,
    [basename(path)]; KeatonTheBot names its parent,
    [basename(dirname(path))]. *)
Theorem aspect_ratio_rule `{UnicodeData} (root below : list str) :
  contains (lit "Aspect Ratio") (join sep (relpath_parts below)) = true ->
  (exists g,
     Keaton.get_game_name_and_mod_name root below
     = Ok (g, clean_title
                (lit "Aspect Ratio "
                 ++ replace (lit "'") (lit ".")
                      (basename (dirname (root ++ below))))))
  /\ (exists g,
        StevensND.get_game_name_and_mod_name root below
        = Ok (g, clean_title (lit "Aspect Ratio " ++ basename (root ++ below))))
  /\ (exists g,
        Theboy181.get_game_name_and_mod_name root below
        = Ok (g, clean_title
                   (theboy181_rewrites
                      (lit "Aspect Ratio " ++ basename (root ++ below))))).
Proof.
  intros Ha. destruct (relpath_parts_cons below) as (p & ps & Ep).
  rewrite Ep in Ha. split; [|split].
  - unfold Keaton.get_game_name_and_mod_name. rewrite Ep, Ha.
    cbn [item nth_error bind].
    destruct (keaton_transform_ok (strip (remove_brackets p))) as [r ->].
    cbn [bind]. eauto.
  - unfold StevensND.get_game_name_and_mod_name. rewrite Ep, Ha.
    cbn [item nth_error bind].
    destruct (move_the_ok (strip (remove_brackets p))) as [r ->].
    cbn [bind]. eauto.
  - unfold Theboy181.get_game_name_and_mod_name. rewrite Ep, Ha.
    cbn [item nth_error bind].
    destruct (theboy181_transform_ok (strip (remove_brackets p))) as [r ->].
    cbn [bind]. fold (theboy181_rewrites
                        (lit "Aspect Ratio " ++ basename (root ++ below))).
    destruct (theboy181_rewrites_aspect (basename (root ++ below)))
      as [t ->].
    destruct (eqb (chr "A" :: t) (lit "Trailblazers")) eqn:E;
      [apply eqb_eq in E; discriminate|].
    eauto.
Qed.

Lemma aspect_ratio_rule_witness :
  (exists g,
     @Keaton.get_game_name_and_mod_name latin1 [lit "repo"]
       [lit "Game"; lit "Aspect Ratio"; lit "16-9 v2"]
     = Ok (g, lit "Aspect Ratio Aspect Ratio"))
  /\ (exists g,
        @StevensND.get_game_name_and_mod_name latin1 [lit "repo"]
          [lit "Game"; lit "Aspect Ratio"; lit "16-9 v2"]
        = Ok (g, lit "Aspect Ratio 16-9 V2"))
  /\ (exists g,
        @Theboy181.get_game_name_and_mod_name latin1 [lit "repo"]
          [lit "Game"; lit "Aspect Ratio"; lit "16-9 v2"]
        = Ok (g, lit "Aspect Ratio 16-9 V2")).
Proof.
  exact (@aspect_ratio_rule latin1 [lit "repo"]
           [lit "Game"; lit "Aspect Ratio"; lit "16-9 v2"] eq_refl).
Defined.

(** *** Fallback names *)

Lemma join_nil_iff ws :
  Forall good_word ws -> join (lit " ") ws = [] <-> ws = [].
Proof.
  intros H. split; [|intros ->; reflexivity].
  destruct H as [|w ws [Hw _] _]; [reflexivity|].
  destruct w; [congruence|]. destruct ws; discriminate.
Qed.

Lemma title_case_empty_iff x :
  title_case_preserve_numbers x = [] <-> split_ws x = [].
Proof.
  unfold title_case_preserve_numbers.
  rewrite (join_nil_iff _ (title_words_good _ (split_ws_good x))).
  split; intros E.
  - apply length_zero_iff_nil. rewrite <- length_title_words, E.
    reflexivity.
  - rewrite E. reflexivity.
Qed.

(** C1 (counterexample). A game folder that is nothing but a bracketed
    tag gives an empty game name. *)
Lemma keaton_empty_game_name :
  @Keaton.get_game_name_and_mod_name latin1 [lit "repo"]
    [lit "[01006A800016E000]"]
  = Ok ([], lit "Mods").
Proof. reflexivity. Qed.

(** C1 (amended). For a path of one ASCII segment below the root without
    "Aspect Ratio", the mod name is the fallback constant of the variant:
    "Mods" in KeatonTheBot and theboy181 when the segment has no version
    marker, "Port Mods" in StevensND; Fl4sh9174 gives "Ultrawide Mods"
    when the relative path has no bracketed tag.  A cleaned name is empty
    exactly when the sanitized raw label has no word. *)
Theorem fallback_mod_names `{UnicodeData} (root : list str) (s : str) :
  ascii_str s ->
  contains (lit "Aspect Ratio") s = false ->
  (has_version_marker s = false ->
   exists g, Keaton.get_game_name_and_mod_name root [s] = Ok (g, lit "Mods"))
  /\ (exists g,
        StevensND.get_game_name_and_mod_name root [s]
        = Ok (g, lit "Port Mods"))
  /\ (has_version_marker s = false ->
      exists g,
        Theboy181.get_game_name_and_mod_name root [s] = Ok (g, lit "Mods"))
  /\ (forall game_dir below,
        first_bracket (join sep (game_dir :: below)) = None ->
        snd (Fl4sh9174.derive_names game_dir below) = lit "Ultrawide Mods")
  /\ (forall raw,
        clean_title raw = [] <-> split_ws (sanitize_name raw) = []).
Proof.
  intros _ Ha.
  assert (Hmods : clean_title (lit "Mods") = lit "Mods").
  { rewrite clean_title_ascii by (apply ascii_str_check; reflexivity).
    reflexivity. }
  assert (Hport : clean_title (lit "Port Mods") = lit "Port Mods").
  { rewrite clean_title_ascii by (apply ascii_str_check; reflexivity).
    reflexivity. }
  split; [|split; [|split; [|split]]].
  - intros Hv. unfold Keaton.get_game_name_and_mod_name.
    cbn [relpath_parts item nth_error bind join].
    destruct (keaton_transform_ok (strip (remove_brackets s))) as [r ->].
    cbn [bind]. rewrite Ha.
    unfold item_back. cbn [length Nat.leb Nat.sub item nth_error bind].
    rewrite Hv. cbn [bind]. rewrite Hmods. eauto.
  - unfold StevensND.get_game_name_and_mod_name.
    cbn [relpath_parts item nth_error bind join].
    destruct (move_the_ok (strip (remove_brackets s))) as [r ->].
    cbn [bind]. rewrite Ha. cbn [tl map filter].
    change (StevensND.drop_country_prefix (find_country [])
              (StevensND.drop_leading_version [])) with (@nil str).
    cbv iota.
    change (StevensND.strip_versions (lit "Port Mods")) with (lit "Port Mods").
    change (StevensND.version_suffix (lit "Port Mods")) with (@None str).
    cbv iota. rewrite Hport. eauto.
  - intros Hv. unfold Theboy181.get_game_name_and_mod_name.
    cbn [relpath_parts item nth_error bind join].
    destruct (theboy181_transform_ok (strip (remove_brackets s))) as [r ->].
    cbn [bind]. rewrite Ha.
    unfold item_back. cbn [length Nat.leb Nat.sub item nth_error bind].
    rewrite Hv. cbn [Nat.ltb Nat.leb bind]. eauto.
  - intros game_dir below Hb. unfold Fl4sh9174.derive_names.
    rewrite Hb. reflexivity.
  - intros raw. unfold clean_title. apply title_case_empty_iff.
Qed.

Lemma fallback_mod_names_witness :
  (exists g,
     @Keaton.get_game_name_and_mod_name latin1 [lit "repo"] [lit "Game"]
     = Ok (g, lit "Mods"))
  /\ (exists g,
        @StevensND.get_game_name_and_mod_name latin1 [lit "repo"] [lit "Game"]
        = Ok (g, lit "Port Mods"))
  /\ (exists g,
        @Theboy181.get_game_name_and_mod_name latin1 [lit "repo"]
          [lit "Game"]
        = Ok (g, lit "Mods")).
Proof.
  assert (Hs : ascii_str (lit "Game")) by (apply ascii_str_check; reflexivity).
  destruct (@fallback_mod_names latin1 [lit "repo"] (lit "Game") Hs eq_refl)
    as (H1 & H2 & H3 & _).
  split; [exact (H1 eq_refl)|]. split; [exact H2|exact (H3 eq_refl)].
Defined.

(** C4. The fix-up of the first and last word does not go through
    [cap_special]: it has no compound rule.  The loop turns "i&ii" into
    "I&II" (as it does for a middle word), and the fix-up then lowers it
    to "I&ii". *)
Theorem fix_up_skips_compound_rule :
  cap_special (lit "i&ii") = lit "I&II"
  /\ loop_words 1 0 false [lit "i&ii"] = [lit "I&II"]
  /\ title_case_preserve_numbers (lit "i&ii") = lit "I&ii"
  /\ title_case_preserve_numbers (lit "part i&ii") = lit "Part I&ii"
  /\ title_case_preserve_numbers (lit "part i&ii remix")
     = lit "Part I&II Remix".
Proof. repeat split. Qed.

(** * Further properties of the title caser *)

Lemma split_ws_lower s : split_ws (lower s) = map lower (split_ws s).
Proof.
  induction s as [|c s IH]; [reflexivity|].
  change (lower (c :: s)) with (lower_c c :: lower s).
  rewrite (split_ws_cons (lower_c c) (lower s)), (split_ws_cons c s).
  rewrite is_space_lower_c, IH.
  destruct (is_space c); [reflexivity|].
  destruct s as [|d s']; [reflexivity|].
  cbn [lower map]. rewrite is_space_lower_c.
  destruct (is_space d); [reflexivity|].
  destruct (split_ws (d :: s')); reflexivity.
Qed.

Lemma title_case_lower x :
  title_case_preserve_numbers (lower x) = title_case_preserve_numbers x.
Proof.
  unfold title_case_preserve_numbers.
  rewrite split_ws_lower, title_words_lower. reflexivity.
Qed.

(** X1. The title caser looks at its input only up to letter case: two
    ASCII labels that agree when lowercased get the same title. *)
Theorem title_case_ignores_case (x y : str) :
  ascii_str x -> ascii_str y ->
  lower x = lower y ->
  title_case_preserve_numbers x = title_case_preserve_numbers y.
Proof.
  intros _ _ E.
  rewrite <- (title_case_lower x), <- (title_case_lower y), E. reflexivity.
Qed.

Lemma title_case_ignores_case_witness :
  title_case_preserve_numbers (lit "LORD of THE rings")
  = title_case_preserve_numbers (lit "lord OF the Rings").
Proof.
  apply title_case_ignores_case;
    [apply ascii_str_check; reflexivity
    |apply ascii_str_check; reflexivity
    |reflexivity].
Defined.

(** X2. The title caser returns a label in white-space normal form (words
    joined by single spaces, nothing at the ends), it does not see how
    the words of its input were spaced, and it returns the empty label
    exactly for an input without a word. *)
Theorem title_case_white_space (x : str) :
  ascii_str x ->
  collapse_whitespace (title_case_preserve_numbers x)
  = title_case_preserve_numbers x
  /\ title_case_preserve_numbers (collapse_whitespace x)
     = title_case_preserve_numbers x
  /\ (title_case_preserve_numbers x = [] <-> split_ws x = []).
Proof.
  intros _. split; [|split].
  - rewrite <- join_split_ws, split_ws_title_case. reflexivity.
  - rewrite <- join_split_ws. unfold title_case_preserve_numbers.
    rewrite (split_ws_join _ (split_ws_good x)). reflexivity.
  - apply title_case_empty_iff.
Qed.

Lemma title_case_white_space_witness :
  title_case_preserve_numbers (collapse_whitespace (lit "  of   mice "))
  = title_case_preserve_numbers (lit "  of   mice ").
Proof.
  assert (H : ascii_str (lit "  of   mice "))
    by (apply ascii_str_check; reflexivity).
  exact (proj1 (proj2 (title_case_white_space _ H))).
Defined.

(** ** What the roman-numeral matcher lets through *)

Lemma matches_chars ic r s :
  matches ic r s ->
  Forall (fun x => existsb (fun c => chr_match ic c x) (re_chars r) = true) s.
Proof.
  induction 1 as [|c x Hx|a b s t _ IHa _ IHb|a b s _ IH|a b s _ IH];
    cbn [re_chars].
  - constructor.
  - repeat constructor. cbn [existsb]. rewrite Hx. reflexivity.
  - apply Forall_app. split.
    + eapply Forall_impl; [|exact IHa]. cbv beta. intros x Hx.
      rewrite existsb_app, Hx. reflexivity.
    + eapply Forall_impl; [|exact IHb]. cbv beta. intros x Hx.
      rewrite existsb_app, Hx. apply orb_true_r.
  - eapply Forall_impl; [|exact IH]. cbv beta. intros x Hx.
    rewrite existsb_app, Hx. reflexivity.
  - eapply Forall_impl; [|exact IH]. cbv beta. intros x Hx.
    rewrite existsb_app, Hx. apply orb_true_r.
Qed.

Lemma matches_length ic r s : matches ic r s -> (length s <= re_max_len r)%nat.
Proof.
  induction 1 as [|c x Hx|a b s t _ IHa _ IHb|a b s _ IH|a b s _ IH];
    cbn [re_max_len length]; rewrite ?length_app; lia.
Qed.

Lemma chr_match_upper c x :
  chr_match true c x = true -> upper_c x = upper_c c.
Proof.
  unfold chr_match. intros H. apply N.eqb_eq in H.
  rewrite <- (upper_lower_c x), <- H. apply upper_lower_c.
Qed.

Lemma existsb_chr_match_upper cs x :
  existsb (fun c => chr_match true c x) cs = true ->
  In (upper_c x) (map upper_c cs).
Proof.
  induction cs as [|c cs IH]; [discriminate|]. cbn [existsb map In].
  intros H. apply orb_true_iff in H. destruct H as [H|H].
  - left. symmetry. apply chr_match_upper, H.
  - right. exact (IH H).
Qed.

Lemma roman_letters body :
  accepts true ROMAN_NUMERAL_PATTERN body = true ->
  Forall (fun x => In (upper_c x) (lit "MDCLXVI")) body
  /\ (length body <= 16)%nat.
Proof.
  intros H. apply accepts_correct in H. split.
  - eapply Forall_impl; [|exact (matches_chars _ _ _ H)]. cbv beta.
    intros x Hx. apply existsb_chr_match_upper in Hx.
    cbn in Hx. cbn.
    repeat (destruct Hx as [Hx|Hx]; [rewrite <- Hx; tauto|]).
    destruct Hx.
  - exact (matches_length _ _ _ H).
Qed.



(** X4. [cap_special] and [capitalize_hyphenated] change nothing but the
    case of letters of an ASCII token, and applying either twice is the
    same as applying it once. *)
Theorem capitalisation_is_stable (w : str) :
  ascii_str w ->
  lower (cap_special w) = lower w
  /\ cap_special (cap_special w) = cap_special w
  /\ lower (capitalize_hyphenated w) = lower w
  /\ capitalize_hyphenated (capitalize_hyphenated w)
     = capitalize_hyphenated w.
Proof.
  intros _. split; [apply lower_cap_special|].
  split; [|split; [apply lower_capitalize_hyphenated|]].
  - rewrite <- (cap_special_lower (cap_special w)), lower_cap_special.
    apply cap_special_lower.
  - rewrite <- (capitalize_hyphenated_lower (capitalize_hyphenated w)).
    rewrite lower_capitalize_hyphenated.
    apply capitalize_hyphenated_lower.
Qed.

Lemma capitalisation_is_stable_witness :
  cap_special (cap_special (lit "pArT-iv")) = cap_special (lit "pArT-iv").
Proof.
  assert (H : ascii_str (lit "pArT-iv"))
    by (apply ascii_str_check; reflexivity).
  exact (proj1 (proj2 (capitalisation_is_stable _ H))).
Defined.

(** ** Acronyms and numerals at any position *)

Lemma nth_error_set_first_any f l i :
  nth_error (set_first f l) i =
  if (i =? 0)%nat then option_map f (nth_error l i) else nth_error l i.
Proof. destruct l, i; reflexivity. Qed.

Lemma nth_error_title_words_any ws i :
  nth_error (title_words ws) i =
  option_map
    (fun r => (if (S i =? length ws)%nat then fix_word else fun v => v)
                ((if (i =? 0)%nat then fix_word else fun v => v) r))
    (nth_error (loop_words (length ws) 0 false ws) i).
Proof.
  unfold title_words.
  rewrite nth_error_set_last, length_set_first, length_loop_words.
  rewrite nth_error_set_first_any.
  destruct (nth_error _ i); destruct (S i =? length ws)%nat;
    destruct (i =? 0)%nat; reflexivity.
Qed.

Lemma nth_error_loop_words_at n ws1 w ws2 :
  nth_error (loop_words n 0 false (ws1 ++ w :: ws2)) (length ws1)
  = Some (word_output n (length ws1) (fold_left flag_after ws1 false) w).
Proof.
  rewrite loop_words_app, nth_error_app2
    by (rewrite length_loop_words; lia).
  rewrite length_loop_words, loop_words_cons, Nat.add_0_r, Nat.sub_diag.
  reflexivity.
Qed.

Lemma upper_upper s : upper (upper s) = upper s.
Proof.
  rewrite <- (upper_lower (upper s)), lower_upper. apply upper_lower.
Qed.

Lemma is_roman_numeral_upper w :
  is_roman_numeral (upper w) = is_roman_numeral w.
Proof.
  rewrite <- (is_roman_numeral_lower (upper w)), lower_upper.
  apply is_roman_numeral_lower.
Qed.

Lemma contains_marker_upper w : contains_marker (upper w) = contains_marker w.
Proof.
  rewrite <- (contains_marker_lower (upper w)), lower_upper.
  apply contains_marker_lower.
Qed.

Lemma no_hyphen_of_plain w :
  contains_marker w = false ->
  existsb (fun x => (x =? chr "-")%N) w = false.
Proof.
  rewrite contains_marker_chars. intros H.
  induction w as [|x w IH]; [reflexivity|]. cbn [existsb] in *.
  apply orb_false_iff in H. destruct H as [Hx Hw].
  rewrite (IH Hw), orb_false_r.
  destruct (N.eqb_spec x (chr "-")) as [->|]; [discriminate|reflexivity].
Qed.

(** The fix-up leaves an upper-cased acronym or numeral alone. *)
Lemma fix_word_upper w :
  contains_marker w = false ->
  mem (upper w) ACRONYMS || is_roman_numeral w = true ->
  fix_word (upper w) = upper w.
Proof.
  intros Hp H. unfold fix_word.
  rewrite split_char_no_sep
    by (apply no_hyphen_of_plain; rewrite contains_marker_upper; exact Hp).
  cbn [map join]. unfold fix_piece.
  rewrite upper_upper, is_roman_numeral_upper, H. reflexivity.
Qed.

Lemma acronym_plain w :
  mem (upper w) ACRONYMS = true ->
  contains_marker w = false /\ mem (lower w) lowercase_exceptions = false.
Proof.
  intros H. rewrite <- contains_marker_lower, <- (lower_upper w).
  apply mem_In in H. unfold ACRONYMS in H. cbn [map In] in H.
  repeat (destruct H as [H|H]; [rewrite <- H; split; reflexivity|]).
  destruct H.
Qed.

Lemma roman_word_plain w :
  good_word w -> is_roman_numeral w = true ->
  contains_marker w = false /\ mem (lower w) lowercase_exceptions = false.
Proof.
  intros [_ Hsp] H. split.
  - assert (Hacc : accepts true ROMAN_NUMERAL_PATTERN w = true).
    { unfold is_roman_numeral, match_anchored in H.
      destruct (rev w) as [|nl t] eqn:E; [rewrite orb_false_r in H; exact H|].
      rewrite (last_is_space_rev _ _ _ Hsp E), orb_false_r in H. exact H. }
    apply roman_letters in Hacc. destruct Hacc as [Hl _].
    rewrite contains_marker_chars.
    clear -Hl. induction Hl as [|x w Hx _ IH]; [reflexivity|].
    cbn [existsb]. rewrite IH, orb_false_r.
    destruct (is_marker_char x) eqn:E; [|reflexivity]. exfalso.
    unfold is_marker_char in E.
    repeat (apply orb_true_iff in E; destruct E as [E|E]);
      apply N.eqb_eq in E; subst x; cbn in Hx;
      repeat (destruct Hx as [Hx|Hx]; [discriminate|]); exact Hx.
  - destruct (mem (lower w) lowercase_exceptions) eqn:E; [|reflexivity].
    exfalso. rewrite <- is_roman_numeral_lower in H.
    apply mem_In in E. unfold lowercase_exceptions in E. cbn [map In] in E.
    repeat (destruct E as [E|E]; [rewrite <- E in H; discriminate|]).
    exact E.
Qed.

(** X5. A word whose upper-case form is in the acronym set, or that is a
    roman numeral, comes out in upper case wherever it stands in an ASCII
    label: first, last or in the middle, after a separator or not. *)
Theorem acronyms_and_numerals_upper (x : str) (ws1 : list str) (w : str)
    (ws2 : list str) :
  ascii_str x ->
  split_ws x = ws1 ++ w :: ws2 ->
  mem (upper w) ACRONYMS || is_roman_numeral w = true ->
  nth_error (split_ws (title_case_preserve_numbers x)) (length ws1)
  = Some (upper w).
Proof.
  intros _ Hsplit H.
  assert (Hg : good_word w).
  { pose proof (split_ws_good x) as Hall. rewrite Hsplit in Hall.
    apply Forall_app in Hall. destruct Hall as [_ Hall].
    inversion Hall. assumption. }
  assert (Hp : contains_marker w = false
               /\ mem (lower w) lowercase_exceptions = false).
  { destruct (mem (upper w) ACRONYMS) eqn:Ea.
    - apply acronym_plain, Ea.
    - apply roman_word_plain; [exact Hg|exact H]. }
  destruct Hp as [Hp Hex].
  assert (Hcap : cap_special w = upper w).
  { unfold cap_special. destruct (mem (upper w) ACRONYMS); [reflexivity|].
    cbn [orb] in H. rewrite H. reflexivity. }
  rewrite split_ws_title_case, Hsplit, nth_error_title_words_any.
  rewrite nth_error_loop_words_at.
  rewrite (word_output_plain _ _ _ _ (proj1 Hg) Hp), Hex.
  cbn [negb]. rewrite orb_true_r, Hcap. cbn [option_map].
  destruct (S (length ws1) =? _)%nat; destruct (length ws1 =? 0)%nat;
    rewrite ?(fix_word_upper _ Hp H); reflexivity.
Qed.

Lemma acronyms_and_numerals_upper_witness :
  nth_error (split_ws (title_case_preserve_numbers (lit "the dof of ix")))
            1 = Some (lit "DOF")
  /\ nth_error (split_ws (title_case_preserve_numbers (lit "the dof of ix")))
               3 = Some (lit "IX").
Proof.
  assert (Hx : ascii_str (lit "the dof of ix"))
    by (apply ascii_str_check; reflexivity).
  split.
  - exact (acronyms_and_numerals_upper (lit "the dof of ix") [lit "the"]
             (lit "dof") [lit "of"; lit "ix"] Hx eq_refl eq_refl).
  - exact (acronyms_and_numerals_upper (lit "the dof of ix")
             [lit "the"; lit "dof"; lit "of"] (lit "ix") [] Hx eq_refl
             eq_refl).
Defined.

(** ** Capital letters at the two ends *)

Lemma capitalize_hyphenated_head c w :
  (c =? chr "-")%N = false ->
  exists t, capitalize_hyphenated (c :: w) = upper_c c :: t.
Proof.
  intros Hc. unfold capitalize_hyphenated. cbn [split_char]. rewrite Hc.
  destruct (split_char (chr "-") w) as [|q qs] eqn:E;
    [destruct (split_char_not_nil _ _ E)|].
  cbn [map]. destruct q as [|d q]; destruct qs; cbn; eauto.
Qed.

Lemma fix_piece_head c w :
  (c =? chr "-")%N = false ->
  exists t, fix_piece (c :: w) = upper_c c :: t.
Proof.
  intros Hc. unfold fix_piece.
  destruct (mem (upper (c :: w)) ACRONYMS || is_roman_numeral (c :: w)).
  - cbn [upper map]. eauto.
  - apply capitalize_hyphenated_head, Hc.
Qed.

Lemma fix_word_head c w : exists t, fix_word (c :: w) = upper_c c :: t.
Proof.
  unfold fix_word. cbn [split_char].
  destruct (c =? chr "-")%N eqn:Hc.
  - apply N.eqb_eq in Hc. subst c.
    destruct (split_char (chr "-") w) as [|q qs] eqn:E;
      [destruct (split_char_not_nil _ _ E)|].
    cbn [map]. rewrite join_cons. cbn. eauto.
  - destruct (split_char (chr "-") w) as [|q qs] eqn:E;
      [destruct (split_char_not_nil _ _ E)|].
    cbn [map]. destruct (fix_piece_head c q Hc) as [t Ht].
    destruct (map fix_piece qs) as [|p ps].
    + exists t. exact Ht.
    + rewrite join_cons.
      exists (t ++ lit "-" ++ join (lit "-") (p :: ps)).
      change (upper_c c :: t ++ lit "-" ++ join (lit "-") (p :: ps))
        with ((upper_c c :: t) ++ lit "-" ++ join (lit "-") (p :: ps)).
      f_equal. exact Ht.
Qed.

Lemma same_lower_head c w r :
  lower r = lower (c :: w) ->
  exists c' w', r = c' :: w' /\ upper_c c' = upper_c c.
Proof.
  destruct r as [|c' w']; [discriminate|]. intros E.
  injection E as E _. exists c', w'. split; [reflexivity|].
  rewrite <- (upper_lower_c c'), E. apply upper_lower_c.
Qed.

(** The entry of [title_words] at the first or the last position begins
    with a capital. *)
Lemma title_words_end_head ws1 u ws2 c w :
  u = c :: w ->
  (ws1 = [] \/ ws2 = []) ->
  exists t,
    nth_error (title_words (ws1 ++ u :: ws2)) (length ws1)
    = Some (upper_c c :: t).
Proof.
  intros Hu Hend. rewrite nth_error_title_words_any, nth_error_loop_words_at.
  cbn [option_map].
  match goal with
  | |- context [word_output ?n ?k ?f u] =>
      remember (word_output n k f u) as r eqn:Er
  end.
  assert (Hl : lower r = lower (c :: w)).
  { rewrite Er, lower_word_output, Hu. reflexivity. }
  clear Er.
  destruct (same_lower_head c w r Hl) as (c' & w' & Er & Hup).
  rewrite <- Hup. subst r.
  destruct (fix_word_head c' w') as [t Ht].
  destruct (fix_word_head (upper_c c') t) as [t' Ht'].
  assert (Hupup : upper_c (upper_c c') = upper_c c').
  { rewrite <- (upper_lower_c (upper_c c')), lower_upper_c.
    apply upper_lower_c. }
  rewrite length_app. cbn [length].
  destruct (Nat.eqb_spec (S (length ws1)) (length ws1 + S (length ws2)));
    destruct (Nat.eqb_spec (length ws1) 0); cbv beta iota.
  - rewrite Ht, Ht', Hupup. eauto.
  - rewrite Ht. eauto.
  - rewrite Ht. eauto.
  - exfalso. destruct Hend as [->| ->]; cbn [length] in *; lia.
Qed.

(** X6. The first word and the last word of a title-cased ASCII label
    begin with the upper-case form of their first character, exception
    words included. *)
Theorem title_case_capital_ends (x : str) :
  ascii_str x ->
  (forall c w ws,
     split_ws x = (c :: w) :: ws ->
     exists t, title_case_preserve_numbers x = upper_c c :: t)
  /\ (forall ws c w,
        split_ws x = ws ++ [c :: w] ->
        exists r t,
          split_ws (title_case_preserve_numbers x) = r ++ [upper_c c :: t]).
Proof.
  intros _. split.
  - intros c w ws Hs. unfold title_case_preserve_numbers. rewrite Hs.
    destruct (title_words_end_head [] _ ws c w eq_refl (or_introl eq_refl))
      as [t Ht].
    cbn [app length] in Ht.
    destruct (title_words ((c :: w) :: ws)) as [|v vs]; [discriminate|].
    injection Ht as ->. rewrite join_head_cons. eauto.
  - intros ws c w Hs. rewrite split_ws_title_case, Hs.
    destruct (title_words_end_head ws _ [] c w eq_refl (or_intror eq_refl))
      as [t Ht].
    pose proof (length_title_words (ws ++ [c :: w])) as Hl.
    rewrite length_app in Hl. cbn [length] in Hl.
    destruct (nth_error_split _ _ Ht) as (l1 & l2 & E & Hl1).
    rewrite E in Hl |- *. rewrite length_app in Hl. cbn [length] in Hl.
    destruct l2; [|cbn [length] in Hl; lia]. eauto.
Qed.

Lemma title_case_capital_ends_witness :
  exists t, title_case_preserve_numbers (lit "of mice and men")
            = chr "O" :: t.
Proof.
  assert (Hx : ascii_str (lit "of mice and men"))
    by (apply ascii_str_check; reflexivity).
  exact (proj1 (title_case_capital_ends _ Hx) (chr "o") (lit "f")
           [lit "mice"; lit "and"; lit "men"] eq_refl).
Defined.

(** * Further properties of the sanitizer *)

Section CharacterInvariants.

Variable P : char -> Prop.

Lemma Forall_replace_from old new s : forall skip,
  Forall P new -> Forall P s -> Forall P (replace_from old new skip s).
Proof.
  intros skip Hn Hs. revert skip.
  induction Hs as [|c s Hc Hs IH]; intros skip; cbn [replace_from];
    [constructor|].
  destruct skip; [|apply IH].
  destruct (startswith old (c :: s)).
  - apply Forall_app. split; [exact Hn|apply IH].
  - constructor; [exact Hc|apply IH].
Qed.

Lemma Forall_sub_bros_from s : forall skip prev,
  Forall P (lit "Bros ") -> Forall P s -> Forall P (sub_bros_from skip prev s).
Proof.
  intros skip prev Hb Hs. revert skip prev.
  induction Hs as [|c s Hc Hs IH]; intros skip prev; cbn [sub_bros_from];
    [constructor|].
  destruct skip; [|apply IH].
  destruct (bros_at prev (c :: s)).
  - apply Forall_app. split; [exact Hb|apply IH].
  - constructor; [exact Hc|apply IH].
Qed.

Lemma Forall_split_ws s : Forall P s -> Forall (Forall P) (split_ws s).
Proof.
  induction 1 as [|c s Hc Hs IH]; [constructor|].
  rewrite split_ws_cons. destruct (is_space c); [exact IH|].
  destruct s as [|d s']; [repeat constructor; exact Hc|].
  destruct (is_space d); [constructor; [repeat constructor; exact Hc|exact IH]|].
  destruct (split_ws (d :: s')) as [|w ws]; [repeat constructor; exact Hc|].
  inversion IH; subst. constructor; [constructor; assumption|assumption].
Qed.

Lemma Forall_join sep ws :
  Forall P sep -> Forall (Forall P) ws -> Forall P (join sep ws).
Proof.
  intros Hsep. induction 1 as [|w ws Hw Hws IH]; [constructor|].
  destruct ws as [|w' ws]; [exact Hw|].
  rewrite join_cons. apply Forall_app. split; [exact Hw|].
  apply Forall_app. split; [exact Hsep|exact IH].
Qed.

Lemma Forall_lstrip s : Forall P s -> Forall P (lstrip s).
Proof.
  induction 1 as [|c s Hc Hs IH]; [constructor|].
  cbn [lstrip]. destruct (is_space c); [exact IH|constructor; assumption].
Qed.

Lemma Forall_strip s : Forall P s -> Forall P (strip s).
Proof.
  intros Hs. unfold strip, rstrip.
  apply Forall_rev, Forall_lstrip, Forall_rev, Forall_lstrip, Hs.
Qed.

End CharacterInvariants.

Lemma replace_char_deleted q s :
  Forall (fun c => (c =? q)%N = false) (replace [q] [] s).
Proof.
  unfold replace. induction s as [|c s IH]; [constructor|].
  cbn [replace_from startswith length Nat.sub].
  rewrite andb_true_r. destruct (q =? c)%N eqn:E; [exact IH|].
  constructor; [rewrite N.eqb_sym; exact E|exact IH].
Qed.

Lemma quotes_deleted n :
  Forall (fun c => is_quote c = false)
         (fold_left (fun n ch => replace ch [] n) quote_chars n).
Proof.
  unfold quote_chars. cbn [fold_left].
  set (n1 := replace (lit "'") [] n).
  set (n2 := replace (lit "'") [] n1).
  set (n3 := replace (lit "`") [] n2).
  assert (H1 : Forall (fun c => (c =? chr "'")%N = false) n3).
  { apply Forall_replace_from; [constructor|].
    apply (replace_char_deleted (chr "'") n1). }
  assert (H2 : Forall (fun c => (c =? chr "`")%N = false) n3)
    by apply (replace_char_deleted (chr "`") n2).
  pose proof (replace_char_deleted 34%N n3) as H3.
  assert (H12 : Forall (fun c => (c =? chr "'")%N = false
                                 /\ (c =? chr "`")%N = false)
                       (replace [34%N] [] n3)).
  { apply Forall_replace_from; [constructor|].
    apply Forall_and; assumption. }
  pose proof (Forall_and H12 H3) as H. cbv beta in H.
  eapply Forall_impl; [|exact H]. cbv beta.
  intros c [[Ha Hb] Hc]. unfold is_quote. rewrite Ha, Hb, Hc. reflexivity.
Qed.

Lemma rstrip_snoc t c : is_space c = false -> rstrip (t ++ [c]) = t ++ [c].
Proof.
  intros Hc. unfold rstrip. rewrite rev_app_distr. cbn [rev app lstrip].
  rewrite Hc. cbn [rev]. rewrite rev_involutive. reflexivity.
Qed.

Lemma good_word_last w :
  good_word w -> exists t c, w = t ++ [c] /\ is_space c = false.
Proof.
  intros [Hne Hsp]. destruct (exists_last Hne) as (t & c & ->).
  exists t, c. split; [reflexivity|].
  rewrite forallb_app in Hsp. apply andb_true_iff in Hsp.
  destruct Hsp as [_ Hc]. cbn in Hc. rewrite andb_true_r in Hc.
  apply negb_true_iff, Hc.
Qed.

Lemma join_good_last ws :
  Forall good_word ws -> ws <> [] ->
  exists t c, join (lit " ") ws = t ++ [c] /\ is_space c = false.
Proof.
  induction 1 as [|w ws Hw Hws IH]; [congruence|]. intros _.
  destruct ws as [|w' ws].
  - apply good_word_last, Hw.
  - destruct IH as (t & c & E & Hc); [discriminate|].
    rewrite join_cons, E. exists (w ++ lit " " ++ t), c.
    rewrite <- !app_assoc. auto.
Qed.

Lemma strip_join_good ws :
  Forall good_word ws -> strip (join (lit " ") ws) = join (lit " ") ws.
Proof.
  intros H. destruct ws as [|w ws]; [reflexivity|].
  assert (Hl : lstrip (join (lit " ") (w :: ws)) = join (lit " ") (w :: ws)).
  { inversion H as [|? ? Hw _]; subst. destruct w as [|c w];
      [destruct Hw; congruence|].
    apply good_word_cons in Hw. destruct Hw as [Hc _].
    rewrite join_head_cons. cbn [lstrip]. rewrite Hc. reflexivity. }
  unfold strip. rewrite Hl.
  destruct (join_good_last _ H) as (t & c & -> & Hc); [discriminate|].
  apply rstrip_snoc, Hc.
Qed.

Lemma sanitize_ascii_normal n :
  exists ws, Forall good_word ws /\ sanitize_ascii n = join (lit " ") ws.
Proof.
  unfold sanitize_ascii.
  match goal with
  | |- context [split_ws ?m] => exists (split_ws m)
  end.
  split; [apply split_ws_good|]. apply strip_join_good, split_ws_good.
Qed.

(** X7. Whatever it is given, [sanitize_name] returns a label of ASCII
    characters only, without apostrophe, backtick or double quote, and in
    white-space normal form: single spaces between words and nothing at
    the ends. *)
Theorem sanitize_name_shape `{UnicodeData} (raw : str) :
  ascii_str (sanitize_name raw)
  /\ Forall (fun c => is_quote c = false) (sanitize_name raw)
  /\ collapse_whitespace (sanitize_name raw) = sanitize_name raw.
Proof.
  split; [apply sanitize_name_is_ascii|]. split.
  - unfold sanitize_name, sanitize_ascii.
    apply Forall_strip, Forall_join; [repeat constructor|].
    apply Forall_split_ws, Forall_sub_bros_from; [repeat constructor|].
    apply Forall_replace_from; [repeat constructor|].
    apply quotes_deleted.
  - unfold sanitize_name.
    destruct (sanitize_ascii_normal (ascii_fold raw)) as (ws & Hws & ->).
    rewrite <- join_split_ws, (split_ws_join _ Hws). reflexivity.
Qed.

(** * Further properties of the path interpreters *)



(** X9. theboy181's and StevensND's interpreters return a pair of names
    for every path: each index they take is guarded, and the split on
    ", The" has two fields whenever the marker occurs. *)
Theorem guarded_interpreters_return `{UnicodeData} (root below : list str) :
  (exists g m, Theboy181.get_game_name_and_mod_name root below = Ok (g, m))
  /\ (exists g m,
        StevensND.get_game_name_and_mod_name root below = Ok (g, m)).
Proof.
  split; [apply theboy181_never_raises|apply stevensnd_never_raises].
Qed.

(** X10. KeatonTheBot and StevensND derive the game name in the same way:
    where both return, their game names are equal. *)
Theorem keaton_stevensnd_same_game `{UnicodeData} (root below : list str)
    (g1 m1 g2 m2 : str) :
  Keaton.get_game_name_and_mod_name root below = Ok (g1, m1) ->
  StevensND.get_game_name_and_mod_name root below = Ok (g2, m2) ->
  g1 = g2.
Proof.
  unfold Keaton.get_game_name_and_mod_name,
         StevensND.get_game_name_and_mod_name, Keaton.transform_game_name.
  destruct (relpath_parts_cons below) as (p & ps & ->).
  cbn [item nth_error bind].
  destruct (move_the_ok (strip (remove_brackets p))) as [r ->].
  cbn [bind]. intros H1 H2.
  injection H2 as <- _.
  match type of H1 with
  | bind ?c _ = _ => destruct c as [raw_mod|e]; cbn [bind] in H1
  end; [|discriminate].
  injection H1 as <- _. reflexivity.
Qed.

Lemma keaton_stevensnd_same_game_witness :
  lit "The Legend of Zelda (usa)" = lit "The Legend of Zelda (usa)".
Proof.
  exact (@keaton_stevensnd_same_game latin1 [lit "repo"]
           [lit "Legend of Zelda, The [0100]"; lit "USA [v1]"; lit "60 FPS"]
           _ _ _ _ eq_refl eq_refl).
Defined.

(** ** StevensND: folders named pchtxt, and version numbers *)

Lemma startswith_app p a b :
  startswith p a = true -> startswith p (a ++ b) = true.
Proof.
  revert a. induction p as [|x p IH]; intros a H; [reflexivity|].
  destruct a as [|y a]; [discriminate|]. cbn [startswith app] in *.
  apply andb_true_iff in H. destruct H as [-> H]. exact (IH _ H).
Qed.

Lemma contains_app_l p a b :
  contains p a = true -> contains p (a ++ b) = true.
Proof.
  induction a as [|y a IH]; intros H.
  - cbn [contains] in H. rewrite orb_false_r in H.
    destruct p; [|discriminate]. destruct b; reflexivity.
  - rewrite contains_cons in H. cbn [app]. rewrite contains_cons.
    apply orb_true_iff in H. destruct H as [H|H].
    + pose proof (startswith_app _ _ b H) as H'. cbn [app] in H'.
      rewrite H'. reflexivity.
    + rewrite (IH H). apply orb_true_r.
Qed.

Lemma join_snoc sep ws x :
  ws <> [] -> join sep (ws ++ [x]) = join sep ws ++ sep ++ x.
Proof.
  induction ws as [|w ws IH]; [congruence|]. intros _.
  destruct ws as [|w' ws]; [reflexivity|].
  change ((w :: w' :: ws) ++ [x]) with (w :: (w' :: ws) ++ [x]).
  change ((w' :: ws) ++ [x]) with (w' :: ws ++ [x]) at 1.
  rewrite join_cons.
  change (w' :: ws ++ [x]) with ((w' :: ws) ++ [x]).
  rewrite IH by discriminate. rewrite join_cons, <- !app_assoc.
  reflexivity.
Qed.

Lemma find_country_snoc ps x :
  has_bracket x = false -> find_country (ps ++ [x]) = find_country ps.
Proof.
  intros Hx. induction ps as [|p ps IH]; cbn [app find_country].
  - rewrite Hx. reflexivity.
  - destruct (has_bracket p); [reflexivity|exact IH].
Qed.

(** X11. StevensND: a last folder without bracketed tag whose name,
    stripped and lowercased, is "pchtxt" changes nothing, as long as the
    path holds no "Aspect Ratio": the names are those of the path without
    that folder. *)
Theorem stevensnd_ignores_pchtxt_folder `{UnicodeData}
    (root below : list str) (pch : str) :
  below <> [] ->
  has_bracket pch = false ->
  eqb (lower (strip (remove_brackets pch))) (lit "pchtxt") = true ->
  contains (lit "Aspect Ratio") (join sep (below ++ [pch])) = false ->
  StevensND.get_game_name_and_mod_name root (below ++ [pch])
  = StevensND.get_game_name_and_mod_name root below.
Proof.
  intros Hne Hb Hp Ha.
  assert (Ha' : contains (lit "Aspect Ratio") (join sep below) = false).
  { destruct (contains (lit "Aspect Ratio") (join sep below)) eqn:E;
      [|reflexivity].
    rewrite (join_snoc _ _ _ Hne) in Ha.
    rewrite (contains_app_l _ _ _ E) in Ha. discriminate. }
  destruct below as [|p ps]; [congruence|].
  unfold StevensND.get_game_name_and_mod_name.
  change (relpath_parts ((p :: ps) ++ [pch])) with (p :: ps ++ [pch]).
  change (relpath_parts (p :: ps)) with (p :: ps).
  change ((p :: ps) ++ [pch]) with (p :: ps ++ [pch]) in Ha.
  rewrite Ha, Ha'. cbn [item nth_error bind tl].
  rewrite (find_country_snoc _ _ Hb), map_app, filter_app.
  cbn [map filter]. rewrite Hp. cbn [negb]. rewrite app_nil_r.
  reflexivity.
Qed.

Lemma stevensnd_ignores_pchtxt_folder_witness :
  @StevensND.get_game_name_and_mod_name latin1 [lit "repo"]
    [lit "Game [0100]"; lit "1.0.2 60 FPS"; lit "PCHTXT"]
  = @StevensND.get_game_name_and_mod_name latin1 [lit "repo"]
      [lit "Game [0100]"; lit "1.0.2 60 FPS"].
Proof.
  apply (@stevensnd_ignores_pchtxt_folder latin1 [lit "repo"]
           [lit "Game [0100]"; lit "1.0.2 60 FPS"] (lit "PCHTXT"));
    [discriminate|reflexivity|reflexivity|reflexivity].
Defined.

Lemma span_no_head (f : char -> bool) s :
  match s with
  | c :: _ => f c = false
  | [] => True
  end ->
  StevensND.span f s = ([], s).
Proof.
  destruct s as [|c s]; [reflexivity|]. intros Hc.
  cbn [StevensND.span]. rewrite Hc. reflexivity.
Qed.

Lemma version_at_needs_digit prev s :
  existsb is_digit s = false -> StevensND.version_at prev s = None.
Proof.
  intros Hs. unfold StevensND.version_at.
  destruct (negb _); [reflexivity|].
  match goal with
  | |- match StevensND.span is_digit ?s1 with _ => _ end = _ =>
      assert (E : StevensND.span is_digit s1 = ([], s1))
  end.
  { apply span_no_head. destruct s as [|c s']; [exact I|].
    cbn [existsb] in Hs. apply orb_false_iff in Hs. destruct Hs as [Hc Hs'].
    destruct (chr_match true (chr "v") c); [|exact Hc].
    destruct s' as [|d s'']; [exact I|].
    cbn [existsb] in Hs'. apply orb_false_iff in Hs'. apply Hs'. }
  rewrite E. reflexivity.
Qed.

Lemma sub_versions_without_digit s : forall prev,
  existsb is_digit s = false -> StevensND.sub_versions_from 0 prev s = s.
Proof.
  induction s as [|c s IH]; intros prev Hs; [reflexivity|].
  cbn [StevensND.sub_versions_from].
  rewrite (version_at_needs_digit prev _ Hs).
  cbn [existsb] in Hs. apply orb_false_iff in Hs.
  rewrite (IH _ (proj2 Hs)). reflexivity.
Qed.

(** X12. [strip_versions] only trims a text that holds no digit: without a
    digit there is no version number to remove. *)
Theorem strip_versions_without_digit (text : str) :
  ascii_str text ->
  existsb is_digit text = false ->
  StevensND.strip_versions text = strip text.
Proof.
  intros _ H. unfold StevensND.strip_versions.
  rewrite (sub_versions_without_digit _ _ H). reflexivity.
Qed.

Lemma strip_versions_without_digit_witness :
  StevensND.strip_versions (lit " Port Mods ") = lit "Port Mods".
Proof.
  apply (strip_versions_without_digit (lit " Port Mods "));
    [apply ascii_str_check|]; reflexivity.
Defined.

(** ** Fl4sh9174: the version at the end of a bracketed tag *)

Lemma span_all (f : char -> bool) d :
  forallb f d = true -> StevensND.span f d = (d, []).
Proof.
  induction d as [|c d IH]; [reflexivity|]. cbn [forallb StevensND.span].
  intros H. apply andb_true_iff in H. destruct H as [-> H].
  rewrite (IH H). reflexivity.
Qed.

Lemma span_stops (f : char -> bool) u c r :
  f c = false ->
  exists x y, StevensND.span f (u ++ c :: r) = (x, y ++ c :: r).
Proof.
  intros Hc. induction u as [|a u IH].
  - exists [], []. cbn [app StevensND.span]. rewrite Hc. reflexivity.
  - cbn [app StevensND.span]. destruct (f a).
    + destruct IH as (x & y & ->). eauto.
    + exists [], (a :: u). reflexivity.
Qed.

Lemma version_end_inside t d :
  t <> [] -> d <> [] ->
  Fl4sh9174.version_end (t ++ lit " v" ++ d) = None.
Proof.
  intros Ht Hd. destruct t as [|a [|b u]]; [congruence| |].
  - cbn. destruct (a =? 32)%N; reflexivity.
  - unfold Fl4sh9174.version_end.
    change ((a :: b :: u) ++ lit " v" ++ d)
      with (a :: b :: u ++ chr " " :: chr "v" :: d).
    cbv iota.
    match goal with
    | |- context [(?p && ?q)%bool] => destruct (p && q)%bool; [|reflexivity]
    end.
    destruct (span_stops (fun c => is_digit c || (c =? chr ".")%N) u
                (chr " ") (chr "v" :: d) eq_refl) as (x & y & E).
    destruct d as [|d0 d]; [congruence|].
    match goal with
    | |- context [StevensND.span ?f ?l] =>
        replace (StevensND.span f l)
          with (x, y ++ chr " " :: chr "v" :: d0 :: d)
    end.
    destruct x; destruct y as [|? [|? ?]]; reflexivity.
Qed.

Lemma drop_version_end_cons c s :
  Fl4sh9174.drop_version_end (c :: s) =
  match Fl4sh9174.version_end (c :: s) with
  | Some rest => rest
  | None => c :: Fl4sh9174.drop_version_end s
  end.
Proof. reflexivity. Qed.

Lemma drop_version_end_suffix t d :
  d <> [] -> forallb is_version_char d = true ->
  Fl4sh9174.drop_version_end (t ++ lit " v" ++ d) = t.
Proof.
  intros Hd Hc. induction t as [|c t IH].
  - change ([] ++ lit " v" ++ d) with (chr " " :: chr "v" :: d).
    rewrite drop_version_end_cons. unfold Fl4sh9174.version_end.
    cbn [andb N.eqb chr N_of_ascii].
    change (chr " " =? chr " ")%N with true.
    change (chr "v" =? chr "v")%N with true. cbn [andb].
    match goal with
    | |- context [StevensND.span ?f d] => rewrite (span_all f d Hc)
    end.
    destruct d; [congruence|reflexivity].
  - change ((c :: t) ++ lit " v" ++ d) with (c :: (t ++ lit " v" ++ d)).
    rewrite drop_version_end_cons.
    change (c :: (t ++ lit " v" ++ d)) with ((c :: t) ++ lit " v" ++ d).
    rewrite version_end_inside by (discriminate || exact Hd).
    rewrite IH. reflexivity.
Qed.

(** X13. Fl4sh9174: when the first bracketed tag of the relative path ends
    in a space, "v" and a run of digits and dots, that version is cut off
    and the mod name is the cleaned rest of the tag. *)
Theorem fl4sh_drops_tag_version `{UnicodeData} (game_dir : str)
    (below : list str) (t d : str) :
  ascii_str d -> d <> [] -> forallb is_version_char d = true ->
  first_bracket (join sep (game_dir :: below)) = Some (t ++ lit " v" ++ d) ->
  snd (Fl4sh9174.derive_names game_dir below) = clean_title (strip t).
Proof.
  intros _ Hd Hc Hb. unfold Fl4sh9174.derive_names. rewrite Hb.
  cbn [snd]. rewrite (drop_version_end_suffix _ _ Hd Hc). reflexivity.
Qed.

Lemma fl4sh_drops_tag_version_witness :
  snd (@Fl4sh9174.derive_names latin1 (lit "Game")
         [lit "[21-9 Ultrawide v1.0.2]"; lit "x"])
  = @clean_title latin1 (strip (lit "21-9 Ultrawide")).
Proof.
  apply (@fl4sh_drops_tag_version latin1 (lit "Game")
           [lit "[21-9 Ultrawide v1.0.2]"; lit "x"]
           (lit "21-9 Ultrawide") (lit "1.0.2"));
    [apply ascii_str_check; reflexivity|discriminate
    |reflexivity|reflexivity].
Defined.

(** ** Stripping bracketed tags *)

Lemma remove_brackets_from_skip s : forall k,
  remove_brackets_from k s = remove_brackets_from 0 (skipn k s).
Proof.
  induction s as [|c s IH]; intros k.
  - destruct k; reflexivity.
  - destruct k as [|k]; [reflexivity|].
    cbn [remove_brackets_from skipn]. apply IH.
Qed.

Lemma remove_brackets_cons c s :
  remove_brackets (c :: s) =
  if (c =? chr "[")%N then
    match close_offset s with
    | Some k => remove_brackets (skipn (S k) s)
    | None => c :: remove_brackets s
    end
  else c :: remove_brackets s.
Proof.
  unfold remove_brackets. cbn [remove_brackets_from].
  destruct (c =? chr "[")%N; [|reflexivity].
  destruct (close_offset s) as [k|]; [|reflexivity].
  apply remove_brackets_from_skip.
Qed.

Lemma close_offset_cons c s :
  close_offset (c :: s) =
  if (c =? chr "]")%N then Some O
  else if (c =? 10)%N then None
  else option_map S (close_offset s).
Proof. reflexivity. Qed.

Lemma close_offset_remove_brackets s :
  close_offset s = None -> close_offset (remove_brackets s) = None.
Proof.
  induction s as [|c s IH]; [reflexivity|].
  rewrite close_offset_cons, remove_brackets_cons.
  destruct (c =? chr "]")%N eqn:E1; [discriminate|].
  destruct (c =? 10)%N eqn:E2.
  - intros _. destruct (c =? chr "[")%N eqn:E3.
    + apply N.eqb_eq in E2, E3. subst c. discriminate.
    + rewrite close_offset_cons, E1, E2. reflexivity.
  - destruct (close_offset s) as [k|] eqn:E; [discriminate|]. intros _.
    destruct (c =? chr "[")%N;
      rewrite close_offset_cons, E1, E2, (IH eq_refl); reflexivity.
Qed.

Lemma first_bracket_cons c s :
  first_bracket (c :: s) =
  if (c =? chr "[")%N then
    match close_offset s with
    | Some k => Some (firstn k s)
    | None => first_bracket s
    end
  else first_bracket s.
Proof. reflexivity. Qed.

Lemma first_bracket_remove_brackets n : forall s,
  (length s <= n)%nat -> first_bracket (remove_brackets s) = None.
Proof.
  induction n as [|n IH]; intros s Hl.
  - destruct s; [reflexivity|cbn [length] in Hl; lia].
  - destruct s as [|c s]; [reflexivity|]. cbn [length] in Hl.
    rewrite remove_brackets_cons.
    destruct (c =? chr "[")%N eqn:E.
    + destruct (close_offset s) as [k|] eqn:Ek.
      * apply IH. rewrite length_skipn. lia.
      * rewrite first_bracket_cons, E.
        rewrite (close_offset_remove_brackets _ Ek). apply IH. lia.
    + rewrite first_bracket_cons, E. apply IH. lia.
Qed.

Lemma remove_brackets_without_tag s :
  first_bracket s = None -> remove_brackets s = s.
Proof.
  induction s as [|c s IH]; [reflexivity|].
  rewrite first_bracket_cons, remove_brackets_cons.
  destruct (c =? chr "[")%N.
  - destruct (close_offset s); [discriminate|]. intros H.
    rewrite (IH H). reflexivity.
  - intros H. rewrite (IH H). reflexivity.
Qed.

(** X14. Stripping the bracketed tags leaves a text in which the tag
    pattern no longer matches anywhere, so the later search for a country
    marker cannot fire on it and stripping again changes nothing. *)
Theorem remove_brackets_leaves_no_tag (s : str) :
  has_bracket (remove_brackets s) = false
  /\ remove_brackets (remove_brackets s) = remove_brackets s.
Proof.
  pose proof (first_bracket_remove_brackets (length s) s (le_n _)) as H.
  split.
  - unfold has_bracket. rewrite H. reflexivity.
  - apply remove_brackets_without_tag, H.
Qed.

(** ** The ", The" rule *)

Lemma startswith_self_app p b : startswith p (p ++ b) = true.
Proof.
  induction p as [|x p IH]; [reflexivity|]. cbn [app startswith].
  rewrite N.eqb_refl. exact IH.
Qed.

Lemma contains_at p a b : contains p (a ++ p ++ b) = true.
Proof.
  induction a as [|y a IH].
  - cbn [app]. destruct (p ++ b) eqn:E.
    + destruct p; [reflexivity|cbn [app] in E; discriminate].
    + rewrite contains_cons, <- E, startswith_self_app. reflexivity.
  - cbn [app]. rewrite contains_cons, IH. apply orb_true_r.
Qed.

Lemma split_str_from_skip sep pre : forall cur b,
  split_str_from sep (length pre) cur (pre ++ b) = split_str_from sep 0 cur b.
Proof.
  induction pre as [|c pre IH]; intros cur b; [reflexivity|].
  cbn [length app split_str_from]. apply IH.
Qed.

Lemma split_str_from_at sep0 sep cur b :
  split_str_from (sep0 :: sep) 0 cur ((sep0 :: sep) ++ b)
  = rev cur :: split_str_from (sep0 :: sep) 0 [] b.
Proof.
  change ((sep0 :: sep) ++ b) with (sep0 :: (sep ++ b)).
  cbn [split_str_from].
  change (sep0 :: (sep ++ b)) with ((sep0 :: sep) ++ b).
  rewrite startswith_self_app. cbn [length Nat.sub].
  rewrite Nat.sub_0_r, split_str_from_skip. reflexivity.
Qed.

Lemma split_str_from_plain sep0 sep a : forall cur rest,
  existsb (fun c => (c =? sep0)%N) a = false ->
  split_str_from (sep0 :: sep) 0 cur (a ++ rest)
  = split_str_from (sep0 :: sep) 0 (rev a ++ cur) rest.
Proof.
  induction a as [|c a IH]; intros cur rest Ha; [reflexivity|].
  cbn [existsb] in Ha. apply orb_false_iff in Ha. destruct Ha as [Hc Ha].
  cbn [app split_str_from startswith].
  rewrite N.eqb_sym, Hc. cbn [andb]. rewrite (IH _ _ Ha).
  cbn [rev]. rewrite <- app_assoc. reflexivity.
Qed.

Lemma split_str_from_none sep b : forall cur,
  contains sep b = false ->
  split_str_from sep 0 cur b = [rev cur ++ b].
Proof.
  induction b as [|c b IH]; intros cur H.
  - cbn [split_str_from]. rewrite app_nil_r. reflexivity.
  - rewrite contains_cons in H. apply orb_false_iff in H.
    destruct H as [Hs Hb]. cbn [split_str_from]. rewrite Hs.
    rewrite (IH _ Hb). cbn [rev]. rewrite <- app_assoc. reflexivity.
Qed.

Lemma split_str_the a rest :
  existsb (fun c => (c =? chr ",")%N) a = false ->
  split_str (lit ", The") (a ++ lit ", The" ++ rest)
  = a :: split_str (lit ", The") rest.
Proof.
  intros Ha. unfold split_str.
  change (lit ", The") with (chr "," :: lit " The").
  rewrite (split_str_from_plain _ _ _ _ _ Ha), split_str_from_at.
  rewrite app_nil_r, rev_involutive. reflexivity.
Qed.

(** X15. The ", The" rule of the game label: for a title [a] without
    comma, "a, The" followed by [b] becomes "The " followed by [a] and
    [b]; but when a second ", The" follows, it and everything after it
    are dropped. *)
Theorem move_the_rule (a b c : str) :
  existsb (fun x => (x =? chr ",")%N) a = false ->
  (contains (lit ", The") b = false ->
   Keaton.transform_game_name (a ++ lit ", The" ++ b)
   = Ok (replace (lit " - ") (lit " ") (lit "The " ++ a ++ b)))
  /\ (existsb (fun x => (x =? chr ",")%N) b = false ->
      Keaton.transform_game_name (a ++ lit ", The" ++ b ++ lit ", The" ++ c)
      = Ok (replace (lit " - ") (lit " ") (lit "The " ++ a ++ b))).
Proof.
  intros Ha. split; intros Hb;
    unfold Keaton.transform_game_name, move_the;
    rewrite contains_at, (split_str_the _ _ Ha).
  - unfold split_str. rewrite (split_str_from_none _ _ _ Hb). reflexivity.
  - rewrite (split_str_the _ _ Hb). reflexivity.
Qed.

Lemma move_the_rule_witness :
  Keaton.transform_game_name (lit "Legend of Zelda, The - BOTW")
  = Ok (lit "The Legend of Zelda BOTW")
  /\ Keaton.transform_game_name (lit "Last of Us, The: Part, The End")
     = Ok (lit "The Last of Us: Part").
Proof.
  split.
  - exact (proj1 (move_the_rule (lit "Legend of Zelda") (lit " - BOTW") []
                    eq_refl) eq_refl).
  - exact (proj2 (move_the_rule (lit "Last of Us") (lit ": Part")
                    (lit " End") eq_refl) eq_refl).
Defined.

(** ** The names of the copied files *)

Lemma startswith_split p : forall s,
  startswith p s = true -> exists r, s = p ++ r.
Proof.
  induction p as [|x p IH]; intros s H; [exists s; reflexivity|].
  destruct s as [|y s]; cbn [startswith] in H; [discriminate H|].
  apply andb_true_iff in H. destruct H as [E H].
  apply N.eqb_eq in E. subst y. destruct (IH _ H) as [r ->].
  exists r. reflexivity.
Qed.

(** X16. A file name that passes the content-file filter is a base name
    followed by seven characters that read ".pchtxt" when lowercased;
    the version is the stripped base name, and the copy is named after
    it with the extension in lower case. *)
Theorem content_file_version (file : str) :
  ascii_str file ->
  Driver.is_content_file file = true ->
  exists base ext,
    file = base ++ ext
    /\ lower ext = lit ".pchtxt"
    /\ Driver.version_of file = strip base
    /\ Driver.copy_name file = strip base ++ lit ".pchtxt".
Proof.
  intros _ H. unfold Driver.is_content_file, Driver.endswith in H.
  apply startswith_split in H. destruct H as [r Hr].
  apply (f_equal (@rev char)) in Hr.
  rewrite rev_involutive, rev_app_distr, rev_involutive in Hr.
  assert (Hlen : length file = (length (rev r) + 7)%nat).
  { rewrite <- (length_map lower_c file). fold (lower file).
    rewrite Hr, length_app. reflexivity. }
  exists (firstn (length (rev r)) file), (skipn (length (rev r)) file).
  split; [symmetry; apply firstn_skipn|].
  assert (Hext : lower (skipn (length (rev r)) file) = lit ".pchtxt").
  { unfold lower. rewrite <- skipn_map. fold (lower file). rewrite Hr.
    rewrite skipn_app, Nat.sub_diag, skipn_all. reflexivity. }
  split; [exact Hext|].
  assert (Hv : Driver.version_of file
               = strip (firstn (length (rev r)) file)).
  { unfold Driver.version_of. rewrite Hlen.
    change (length Driver.extension) with 7%nat.
    rewrite Nat.add_sub. reflexivity. }
  split; [exact Hv|]. unfold Driver.copy_name. rewrite Hv. reflexivity.
Qed.

Lemma content_file_version_witness :
  exists base ext,
    lit " 1.0.2 .PCHTXT" = base ++ ext
    /\ lower ext = lit ".pchtxt"
    /\ Driver.version_of (lit " 1.0.2 .PCHTXT") = strip base
    /\ Driver.copy_name (lit " 1.0.2 .PCHTXT") = strip base ++ lit ".pchtxt".
Proof.
  apply content_file_version; [apply ascii_str_check|]; reflexivity.
Defined.

(** * The cleaned title *)

Lemma is_ascii_lower_c c : is_ascii (lower_c c) = is_ascii c.
Proof. char_cases. Qed.

Lemma ascii_str_lower s : ascii_str (lower s) <-> ascii_str s.
Proof.
  unfold ascii_str, lower. rewrite Forall_map.
  split; apply Forall_impl; intros c; rewrite is_ascii_lower_c; auto.
Qed.

Lemma title_case_ascii x :
  ascii_str x -> ascii_str (title_case_preserve_numbers x).
Proof.
  intros Hx. apply ascii_str_lower.
  unfold title_case_preserve_numbers.
  rewrite lower_join, lower_title_words, <- lower_join.
  apply ascii_str_lower, ascii_str_join; [repeat constructor|].
  apply ascii_str_split_ws, Hx.
Qed.

(** X17. Whatever the raw name, [clean_title] returns an ASCII label in
    white-space normal form on which the title caser has nothing left to
    do. *)
Theorem clean_title_shape `{UnicodeData} (raw : str) :
  ascii_str (clean_title raw)
  /\ collapse_whitespace (clean_title raw) = clean_title raw
  /\ title_case_preserve_numbers (clean_title raw) = clean_title raw.
Proof.
  unfold clean_title. split; [|split].
  - apply title_case_ascii, sanitize_name_is_ascii.
  - rewrite <- join_split_ws, split_ws_title_case. reflexivity.
  - apply title_case_twice.
Qed.

(** * StevensND: version numbers around the mod label *)

Lemma span_exact (f : char -> bool) g c r :
  forallb f g = true -> f c = false ->
  StevensND.span f (g ++ c :: r) = (g, c :: r).
Proof.
  intros Hg Hc. induction g as [|x g IH].
  - cbn [app StevensND.span]. rewrite Hc. reflexivity.
  - cbn [forallb] in Hg. apply andb_true_iff in Hg. destruct Hg as [Hx Hg].
    cbn [app StevensND.span]. rewrite Hx, (IH Hg). reflexivity.
Qed.

Lemma version_suffix_without_space u :
  existsb is_space u = false -> StevensND.version_suffix u = None.
Proof.
  induction u as [|c u IH]; [reflexivity|].
  cbn [existsb]. intros H. apply orb_false_iff in H. destruct H as [Hc Hu].
  cbn [StevensND.version_suffix]. rewrite (IH Hu).
  assert (Ht : StevensND.version_tail (c :: u) = false).
  { unfold StevensND.version_tail. cbn [StevensND.span]. rewrite Hc.
    reflexivity. }
  rewrite Ht. destruct (c =? 10)%N; reflexivity.
Qed.

Lemma version_char_not_space d :
  forallb is_version_char d = true -> existsb is_space d = false.
Proof.
  induction d as [|c d IH]; [reflexivity|]. cbn [forallb existsb].
  intros H. apply andb_true_iff in H. destruct H as [Hc Hd].
  rewrite (IH Hd), orb_false_r. revert Hc. unfold is_version_char.
  char_cases.
Qed.

Lemma version_suffix_cons c s :
  StevensND.version_suffix (c :: s) =
  match (if (c =? 10)%N then None else StevensND.version_suffix s) with
  | Some g => Some (c :: g)
  | None => if StevensND.version_tail (c :: s) then Some [] else None
  end.
Proof. reflexivity. Qed.

(** X18. StevensND: a mod label on one line that ends in a space, "v" or
    "V", and a run of digits and dots loses that ending: the pattern of
    the last rewrite matches, and its group is the text before the
    space. *)
Theorem version_suffix_cut (t d : str) (v : char) :
  ascii_str (t ++ [v] ++ d) ->
  existsb (fun c => (c =? 10)%N) t = false ->
  chr_match true (chr "v") v = true ->
  d <> [] -> forallb is_version_char d = true ->
  StevensND.version_suffix (t ++ lit " " ++ [v] ++ d) = Some t.
Proof.
  intros _ Ht Hv Hd Hc.
  assert (Hvs : is_space v = false).
  { revert Hv. unfold chr_match. intros Hv. apply N.eqb_eq in Hv.
    destruct (is_space v) eqn:E; [|reflexivity]. exfalso.
    rewrite <- is_space_lower_c, <- Hv in E. discriminate. }
  induction t as [|c t IH].
  - change ([] ++ lit " " ++ [v] ++ d) with (chr " " :: v :: d).
    rewrite version_suffix_cons.
    change (chr " " =? 10)%N with false. cbv iota.
    rewrite (version_suffix_without_space (v :: d))
      by (cbn [existsb]; rewrite Hvs; apply version_char_not_space, Hc).
    unfold StevensND.version_tail.
    rewrite (span_exact is_space [chr " "] v d eq_refl Hvs : 
               StevensND.span is_space (chr " " :: v :: d)
               = ([chr " "], v :: d)).
    rewrite Hv. cbn [andb].
    match goal with
    | |- context [StevensND.span ?f d] => rewrite (span_all f d Hc)
    end.
    destruct d; [congruence|reflexivity].
  - cbn [existsb] in Ht. apply orb_false_iff in Ht. destruct Ht as [Hc0 Ht].
    change ((c :: t) ++ lit " " ++ [v] ++ d)
      with (c :: (t ++ lit " " ++ [v] ++ d)).
    rewrite version_suffix_cons, Hc0, (IH Ht). reflexivity.
Qed.

Lemma version_suffix_cut_witness :
  StevensND.version_suffix (lit "60 FPS  V2.") = Some (lit "60 FPS ").
Proof.
  apply (version_suffix_cut (lit "60 FPS ") (lit "2.") (chr "V"));
    [apply ascii_str_check; reflexivity|reflexivity|reflexivity
    |discriminate|reflexivity].
Defined.

Lemma span_digits_before_tail g gs name :
  forallb is_digit g = true ->
  StevensND.span is_digit
    (g ++ concat (map (cons (chr ".")) gs) ++ chr " " :: name)
  = (g, concat (map (cons (chr ".")) gs) ++ chr " " :: name).
Proof.
  intros Hg.
  destruct (concat (map (cons (chr ".")) gs) ++ chr " " :: name)
    as [|c r] eqn:E; [destruct (concat _); discriminate|].
  apply span_exact; [exact Hg|].
  destruct gs as [|g' gs']; cbn in E; injection E as <- _; reflexivity.
Qed.

Lemma skip_dot_digits_groups name gs : forall fuel,
  (length gs <= fuel)%nat -> Forall digit_group gs ->
  StevensND.skip_dot_digits fuel
    (concat (map (cons (chr ".")) gs) ++ chr " " :: name)
  = chr " " :: name.
Proof.
  induction gs as [|g gs IH]; intros fuel Hf Hg.
  - destruct fuel; reflexivity.
  - destruct fuel as [|fuel]; [cbn [length] in Hf; lia|].
    inversion Hg as [|? ? Hg1 Hgs]; subst.
    cbn [map concat StevensND.skip_dot_digits].
    change ((chr "." :: g) ++ concat (map (cons (chr ".")) gs))
      with (chr "." :: g ++ concat (map (cons (chr ".")) gs)).
    rewrite <- app_comm_cons, <- app_assoc.
    unfold StevensND.dot_digits.
    change (chr "." =? chr ".")%N with true. cbv iota.
    rewrite (span_digits_before_tail g gs name (proj2 Hg1)).
    destruct g as [|d0 g]; [destruct Hg1; congruence|].
    apply IH; [cbn [length] in Hf; lia|exact Hgs].
Qed.

Lemma length_dotted_tail gs :
  (length gs <= length (concat (map (cons (chr ".")) gs)))%nat.
Proof.
  induction gs as [|g gs IH]; [apply le_n|].
  cbn [map concat length]. rewrite length_app. cbn [length]. lia.
Qed.

Lemma snd_span_space s : snd (StevensND.span is_space s) = lstrip s.
Proof.
  induction s as [|c s IH]; [reflexivity|].
  cbn [StevensND.span lstrip]. destruct (is_space c); [|reflexivity].
  destruct (StevensND.span is_space s). exact IH.
Qed.

Lemma lstrip_no_newline s :
  existsb (fun c => (c =? 10)%N) s = false ->
  forallb (fun c => negb (c =? 10)%N) (lstrip s) = true.
Proof.
  induction s as [|c s IH]; [reflexivity|]. cbn [existsb lstrip].
  intros H. apply orb_false_iff in H. destruct H as [Hc Hs].
  destruct (is_space c); [exact (IH Hs)|].
  cbn [forallb]. rewrite Hc. cbn [negb andb].
  clear -Hs. induction s as [|d s IH]; [reflexivity|].
  cbn [existsb forallb] in *. apply orb_false_iff in Hs.
  destruct Hs as [-> Hs]. exact (IH Hs).
Qed.

Lemma lstrip_lstrip s : lstrip (lstrip s) = lstrip s.
Proof.
  induction s as [|c s IH]; [reflexivity|]. cbn [lstrip].
  destruct (is_space c) eqn:E; [exact IH|]. cbn [lstrip]. rewrite E.
  reflexivity.
Qed.

Lemma leading_version_dotted g0 gs name :
  Forall digit_group (g0 :: gs) ->
  existsb (fun c => (c =? 10)%N) name = false ->
  StevensND.leading_version (dotted g0 gs ++ lit " " ++ name)
  = Some (lstrip name).
Proof.
  intros Hg Hn. inversion Hg as [|? ? [Hne Hd] Hgs]; subst.
  unfold StevensND.leading_version, dotted. rewrite <- app_assoc.
  change (lit " " ++ name) with (chr " " :: name).
  rewrite (span_digits_before_tail g0 gs name Hd).
  destruct g0 as [|d0 g0]; [congruence|].
  rewrite skip_dot_digits_groups; [| |exact Hgs].
  - pose proof (snd_span_space (chr " " :: name)) as Hs.
    change (lstrip (chr " " :: name)) with (lstrip name) in Hs.
    rewrite Hs. unfold StevensND.rest_of_line.
    match goal with
    | |- context [StevensND.span ?f (lstrip name)] =>
        rewrite (span_all f _ (lstrip_no_newline _ Hn))
    end.
    reflexivity.
  - eapply Nat.le_trans; [apply length_dotted_tail|].
    rewrite length_app. apply Nat.le_add_r.
Qed.

(** X19. StevensND: a version number (runs of digits joined by dots)
    and a space at the head of the first mod folder are cut off, and a
    folder of which nothing else is left is dropped from the list. *)
Theorem leading_version_cut (g0 : str) (gs : list str) (name : str)
    (rest : list str) :
  ascii_str name ->
  Forall digit_group (g0 :: gs) ->
  existsb (fun c => (c =? 10)%N) name = false ->
  StevensND.drop_leading_version
    ((dotted g0 gs ++ lit " " ++ name) :: rest)
  = match strip name with
    | [] => rest
    | trailing => trailing :: rest
    end.
Proof.
  intros _ Hg Hn. unfold StevensND.drop_leading_version.
  rewrite (leading_version_dotted _ _ _ Hg Hn).
  unfold strip. rewrite lstrip_lstrip. reflexivity.
Qed.

Lemma leading_version_cut_witness :
  StevensND.drop_leading_version
    [lit "1.0.2 60 FPS"; lit "pchtxt"]
  = [lit "60 FPS"; lit "pchtxt"]
  /\ StevensND.drop_leading_version [lit "1.0.2 "; lit "60 FPS"]
     = [lit "60 FPS"].
Proof.
  split.
  - apply (leading_version_cut (lit "1") [lit "0"; lit "2"] (lit "60 FPS")
             [lit "pchtxt"]);
      [apply ascii_str_check; reflexivity
      |repeat constructor; discriminate|reflexivity].
  - apply (leading_version_cut (lit "1") [lit "0"; lit "2"] [] [lit "60 FPS"]);
      [constructor|repeat constructor; discriminate|reflexivity].
Defined.
